(** * EMSA-PSS (pssr.cpp): a shallow embedding of the PSS codec of Botan

    The development follows src/lib/pk_pad/sig_padding/emsa_pssr/pssr.cpp:
    [pss_encode], [pss_verify] and the two padding objects [PSSR] and
    [PSS_Raw] built on them.  A second part follows
    src/lib/filters/buf_filt.cpp: the constructor, [write] and [end_msg]
    of [Buffered_Filter].

    Conventions.
    - [uint8_t] is the 256-constructor type [byte] of the standard library;
      bit operations go through [N] ([N.lxor], [N.land], [N.shiftr]) and
      are truncated back to one byte by [u8].
    - [size_t] quantities are natural numbers.  Every subtraction of the
      source is performed on values for which it does not underflow on the
      paths that reach it (see [subtractions_exact]).
    - [std::vector<uint8_t>] and [std::span<const uint8_t>] are [list byte].
    - A C++ exception is the [Throw] branch of [result]; an out-of-range
      subscript (undefined behaviour in the source) is made visible as
      [Throw Out_Of_Bounds] so that its absence can be stated. *)

From Stdlib Require Import List NArith Arith Lia Bool.
From Stdlib Require Strings.String.
From Stdlib Require Import Strings.Byte.
Import ListNotations.
Import String.StringSyntax.
Delimit Scope string_scope with string.

(** ** Bytes *)

Module U8.

(** Conversion of an integer to [uint8_t] (truncation modulo 256). *)
Definition u8 (n : N) : byte :=
  match Byte.of_N (n mod 256) with
  | Some b => b
  | None => x00
  end.

Definition xor (a b : byte) : byte := u8 (N.lxor (Byte.to_N a) (Byte.to_N b)).
Definition and (a b : byte) : byte := u8 (N.land (Byte.to_N a) (Byte.to_N b)).

(** [0xFF >> k], stored in a [uint8_t]. *)
Definition ff_shr (k : nat) : byte := u8 (N.shiftr 255 (N.of_nat k)).

(** Bit [i] of a byte, [i] counted from the least significant bit. *)
Definition bit (x : byte) (i : nat) : bool := N.testbit (Byte.to_N x) (N.of_nat i).

(** The 256 values of [uint8_t]. *)
Definition all : list byte := map u8 (map N.of_nat (seq 0 256)).

End U8.

(** ** Exceptions *)

Inductive exn : Type :=
| Encoding_Error (what : String.string)
| Invalid_State
| Assertion_Failure
| Out_Of_Bounds.

Inductive result (A : Type) : Type :=
| Ok (a : A)
| Throw (e : exn).

Arguments Ok {A} a.
Arguments Throw {A} e.

Definition bind {A B : Type} (r : result A) (k : A -> result B) : result B :=
  match r with
  | Ok a => k a
  | Throw e => Throw e
  end.

Declare Scope result_scope.
Delimit Scope result_scope with result.
Notation "x <- c ;; k" := (bind c (fun x => k))
  (at level 61, c at next level, right associativity) : result_scope.
Notation "' p <- c ;; k" := (bind c (fun x => let p := x in k))
  (at level 61, p pattern, c at next level, right associativity) : result_scope.
Open Scope result_scope.

Definition is_encoding_error {A : Type} (r : result A) : Prop :=
  exists what, r = Throw (Encoding_Error what).

(** ** Helpers of the library used by pssr.cpp *)

(** Modelled from the spec: [ceil_tobytes] (bit_ops.h) is not among the
    sources; the spec gives [emLen = ceil(N/8)] and [keyBytes = ceil(K/8)]. *)
Definition ceil_tobytes (bits : nat) : nat := (bits + 7) / 8.

(** Modelled from the spec: [high_bit] (bit_ops.h) is not among the sources;
    the spec calls it [bitlength(EM[0])]: the 1-based index of the highest
    set bit, 0 for a zero byte. *)
Definition high_bit (b : byte) : nat := N.size_nat (Byte.to_N b).

(** Checked subscript [v[i]]. *)
Definition at_ (v : list byte) (i : nat) : result byte :=
  match nth_error v i with
  | Some b => Ok b
  | None => Throw Out_Of_Bounds
  end.

(** [v[i] = f(v[i])] in place, as in [EM[0] &= mask]. *)
Definition modify_at (v : list byte) (i : nat) (f : byte -> byte) : result (list byte) :=
  match nth_error v i with
  | Some b => Ok (firstn i v ++ f b :: skipn (S i) v)
  | None => Throw Out_Of_Bounds
  end.

(** Storing [bs] into [v] from offset [off] on (the caller checks the room). *)
Definition write_at (v : list byte) (off : nat) (bs : list byte) : list byte :=
  firstn off v ++ bs ++ skipn (off + length bs) v.

(** [xor_buf(out, in, n)] over two buffers of the same length. *)
Fixpoint xor_buf (out mask : list byte) : list byte :=
  match out, mask with
  | o :: out', m :: mask' => U8.xor o m :: xor_buf out' mask'
  | _, _ => out
  end.

(** Modelled from the spec: [BufferStuffer] (stl_util.h) is not among the
    sources.  It is a cursor over a caller-owned buffer: [append] stores at
    the cursor and advances it, and refuses (state check) to run past the
    end.  The buffer stays owned by the caller, who also writes to it
    directly ([mgf1_mask], [EM[0] &= ...]) between two appends: the model
    keeps the buffer and the cursor apart, the buffer being passed to each
    call. *)
Module BufferStuffer.

Record t : Type := { cursor : nat }.

Definition make : t := {| cursor := 0 |}.

Definition remaining_capacity (buffer : list byte) (s : t) : nat :=
  length buffer - cursor s.

Definition full (buffer : list byte) (s : t) : bool :=
  remaining_capacity buffer s =? 0.

Definition append (buffer : list byte) (s : t) (bs : list byte)
  : result (list byte * t) :=
  if length bs <=? remaining_capacity buffer s
  then Ok (write_at buffer (cursor s) bs, {| cursor := cursor s + length bs |})
  else Throw Invalid_State.

Definition append_fill (buffer : list byte) (s : t) (b : byte) (n : nat)
  : result (list byte * t) :=
  append buffer s (repeat b n).

End BufferStuffer.

(** Modelled from the spec: [CT::is_equal] (ct_utils.h) is not among the
    sources; the spec's constant-time comparison of [len] bytes: the
    differences are accumulated with xor and or, and the verdict is read
    off the accumulator at the end only. *)
Definition ct_is_equal (x y : list byte) (len : nat) : bool :=
  N.eqb
    (fold_left (fun acc p => N.lor acc (N.lxor (Byte.to_N (fst p)) (Byte.to_N (snd p))))
               (combine (firstn len x) (firstn len y)) 0%N)
    0%N.

(** ** Collaborators *)

(** [HashFunction]: the object absorbs bytes ([update]) and [final] returns
    the digest of everything absorbed since the last reset, then resets.
    The absorbed bytes are the state; [digest] is the function the hash
    computes.

    pssr.cpp uses the object in brackets [update ... update, final] only,
    and [final] resets it; [pss_encode] and [pss_verify] are handed the
    object in its reset state (after construction, after a [final], after
    [raw_data]), so that each bracket starts from [Hash.clear]. *)
Class HashFunction : Type := {
  output_length : nat;
  digest : list byte -> list byte;
  digest_length : forall m, length (digest m) = output_length
}.

Module Hash.
Section Ops.
Context {hash : HashFunction}.

(** State of a hash object: the bytes absorbed since the last reset. *)
Definition state : Type := list byte.
Definition clear : state := [].
Definition update (h : state) (input : list byte) : state := h ++ input.
Definition final_stdvec (h : state) : list byte := digest h.
End Ops.
End Hash.

(** Modelled from the spec: [mgf1_mask] (mgf1.cpp) is not among the sources.
    The spec's MGF collaborator: a deterministic mask of [out_len] bytes
    derived from the seed, xored into the output buffer. *)
Class MaskGenerator : Type := {
  mgf1 : list byte -> nat -> list byte;
  mgf1_length : forall seed out_len, length (mgf1 seed out_len) = out_len
}.

Section Codec.

Context {hash : HashFunction} {mgf : MaskGenerator}.

(** [mgf1_mask(hash, in, in_len, out, out_len)]: xors the mask into
    [out[0 .. out_len)]. *)
Definition mgf1_mask (seed : list byte) (out : list byte) (out_len : nat)
  : result (list byte) :=
  if out_len <=? length out
  then Ok (xor_buf (firstn out_len out) (mgf1 seed out_len) ++ skipn out_len out)
  else Throw Out_Of_Bounds.

(** *** PSSR Encode Operation *)
Definition pss_encode (msg salt : list byte) (output_bits : nat)
  : result (list byte) :=
  let HASH_SIZE := output_length in
  if negb (length msg =? HASH_SIZE) then
    Throw (Encoding_Error "Cannot encode PSS string, input length invalid for hash"%string)
  else if output_bits <? 8 * HASH_SIZE + 8 * length salt + 9 then
    Throw (Encoding_Error "Cannot encode PSS string, output length too small"%string)
  else
    let output_length := ceil_tobytes output_bits in
    let db0_mask := U8.ff_shr (8 * output_length - output_bits) in
    let padding := repeat x00 8 in
    let h := Hash.update Hash.clear padding in
    let h := Hash.update h msg in
    let h := Hash.update h salt in
    let H := Hash.final_stdvec h in
    let db_len := output_length - HASH_SIZE - 1 in
    let EM := repeat x00 output_length in
    let stuffer := BufferStuffer.make in
    '(EM, stuffer) <-
       BufferStuffer.append_fill EM stuffer x00
         (BufferStuffer.remaining_capacity EM stuffer - (1 + length salt + length H + 1)) ;;
    '(EM, stuffer) <- BufferStuffer.append_fill EM stuffer x01 1 ;;
    '(EM, stuffer) <- BufferStuffer.append EM stuffer salt ;;
    EM <- mgf1_mask H EM db_len ;;
    EM <- modify_at EM 0 (fun b => U8.and b db0_mask) ;;
    '(EM, stuffer) <- BufferStuffer.append EM stuffer H ;;
    '(EM, stuffer) <- BufferStuffer.append_fill EM stuffer xbc 1 ;;
    if BufferStuffer.full EM stuffer then Ok EM else Throw Assertion_Failure.

(** The scan for the 0x01 marker: [Some off] is the value of
    [salt_offset] when the loop is left by [break] or by exhaustion (then
    0), [None] is the [return false] inside the loop. *)
Fixpoint find_salt_offset (DB : list byte) (j : nat) : option nat :=
  match DB with
  | [] => Some 0
  | b :: DB' =>
      if Byte.eqb b x01 then Some (j + 1)
      else if negb (Byte.eqb b x00) then None
      else find_salt_offset DB' (j + 1)
  end.

(** The bytes [H[0 .. HASH_SIZE)] seen through the pointer
    [H = &coded[DB_size]]. *)
Definition H_of (coded : list byte) (DB_size : nat) : list byte :=
  firstn output_length (skipn DB_size coded).

(** Zero-padding of a short representation (lines 89-97). *)
Definition pad_coded (pss_repr : list byte) (key_bytes : nat) : result (list byte) :=
  if length pss_repr <? key_bytes then
    let coded := repeat x00 key_bytes in
    let stuffer := BufferStuffer.make in
    '(coded, stuffer) <-
       BufferStuffer.append_fill coded stuffer x00 (key_bytes - length pss_repr) ;;
    '(coded, stuffer) <- BufferStuffer.append coded stuffer pss_repr ;;
    Ok coded
  else Ok pss_repr.

(** Lines 105-112: the data block with the mask removed and the top bits
    cleared, inside the buffer [coded]. *)
Definition unmask (coded : list byte) (top_bits : nat) : result (list byte) :=
  let DB_size := length coded - output_length - 1 in
  coded <- mgf1_mask (H_of coded DB_size) coded DB_size ;;
  modify_at coded 0 (fun b => U8.and b (U8.ff_shr top_bits)).

(** Outcome of the part of [pss_verify] that follows the structural
    checks: [Rejected] is a [return false] before the comparison,
    [Compared ok n] the result of the comparison with the salt length
    found. *)
Inductive verdict : Type :=
| Rejected
| Compared (ok : bool) (salt_size : nat).

Definition pss_verify_core (pss_repr message_hash : list byte) (key_bits : nat)
  : result verdict :=
  let HASH_SIZE := output_length in
  let key_bytes := ceil_tobytes key_bits in
  if key_bits <? 8 * HASH_SIZE + 9 then Ok Rejected
  else if negb (length message_hash =? HASH_SIZE) then Ok Rejected
  else if (key_bytes <? length pss_repr) || (length pss_repr <=? 1) then Ok Rejected
  else
    last_byte <- at_ pss_repr (length pss_repr - 1) ;;
    if negb (Byte.eqb last_byte xbc) then Ok Rejected
    else
      coded <- pad_coded pss_repr key_bytes ;;
      let top_bits := 8 * ((key_bits + 7) / 8) - key_bits in
      coded0 <- at_ coded 0 ;;
      if 8 - high_bit coded0 <? top_bits then Ok Rejected
      else
        let DB_size := length coded - HASH_SIZE - 1 in
        coded <- unmask coded top_bits ;;
        match find_salt_offset (firstn DB_size coded) 0 with
        | None => Ok Rejected
        | Some salt_offset =>
            if salt_offset =? 0 then Ok Rejected
            else
              let salt_size := DB_size - salt_offset in
              let padding := repeat x00 8 in
              let h := Hash.update Hash.clear padding in
              let h := Hash.update h message_hash in
              let h := Hash.update h (firstn salt_size (skipn salt_offset coded)) in
              let H2 := Hash.final_stdvec h in
              let ok := ct_is_equal (H_of coded DB_size) H2 HASH_SIZE in
              Ok (Compared ok salt_size)
        end.

(** *** pss_verify

    [out_salt_size] is the pointer argument: [None] is [nullptr],
    [Some v] a location that holds [v].  The second component of the
    result is the location after the call. *)
Definition pss_verify (pss_repr message_hash : list byte) (key_bits : nat)
                      (out_salt_size : option nat)
  : result (bool * option nat) :=
  v <- pss_verify_core pss_repr message_hash key_bits ;;
  match v with
  | Rejected => Ok (false, out_salt_size)
  | Compared ok salt_size =>
      match ok, out_salt_size with
      | true, Some _ => Ok (ok, Some salt_size)
      | _, _ => Ok (ok, out_salt_size)
      end
  end.

End Codec.

(** ** The padding objects *)

(** [PSSR]: the hash object [m_hash] is the [HashFunction] at hand; the
    fields are the remaining members. *)
Record PSSR : Type := {
  pssr_salt_size : nat;
  pssr_required_salt_len : bool
}.

(** [PSS_Raw] also owns the buffer [m_msg]. *)
Record PSS_Raw : Type := {
  m_msg : list byte;
  m_salt_size : nat;
  m_required_salt_len : bool
}.

Section Objects.

Context {hash : HashFunction} {mgf : MaskGenerator}.

(** [PSSR::PSSR(hash)] and [PSSR::PSSR(hash, salt_size)]. *)
Definition PSSR_new : PSSR :=
  {| pssr_salt_size := output_length; pssr_required_salt_len := false |}.
Definition PSSR_new_salt (salt_size : nat) : PSSR :=
  {| pssr_salt_size := salt_size; pssr_required_salt_len := true |}.

(** [PSSR::verify]: the local [salt_size = 0] is the location handed to
    [pss_verify]. *)
Definition PSSR_verify (this : PSSR) (coded raw : list byte) (key_bits : nat)
  : result bool :=
  let salt_size := 0 in
  '(ok, cell) <- pss_verify coded raw key_bits (Some salt_size) ;;
  let salt_size := match cell with Some v => v | None => salt_size end in
  if pssr_required_salt_len this && negb (salt_size =? pssr_salt_size this)
  then Ok false
  else Ok ok.

(** [PSS_Raw::PSS_Raw(hash)] and [PSS_Raw::PSS_Raw(hash, salt_size)]. *)
Definition PSS_Raw_new : PSS_Raw :=
  {| m_msg := []; m_salt_size := output_length; m_required_salt_len := false |}.
Definition PSS_Raw_new_salt (salt_size : nat) : PSS_Raw :=
  {| m_msg := []; m_salt_size := salt_size; m_required_salt_len := true |}.

(** [PSS_Raw::update]: [m_msg.insert(m_msg.end(), input, input + length)]. *)
Definition PSS_Raw_update (this : PSS_Raw) (input : list byte) : PSS_Raw :=
  {| m_msg := m_msg this ++ input;
     m_salt_size := m_salt_size this;
     m_required_salt_len := m_required_salt_len this |}.

(** [PSS_Raw::raw_data]: the swap with the empty [ret] happens before the
    length test, so the object that is left behind is the same whether the
    call returns or throws; it is the second component. *)
Definition PSS_Raw_raw_data (this : PSS_Raw) : result (list byte) * PSS_Raw :=
  let ret := m_msg this in
  let this' := {| m_msg := [];
                  m_salt_size := m_salt_size this;
                  m_required_salt_len := m_required_salt_len this |} in
  if negb (length ret =? output_length)
  then (Throw (Encoding_Error "PSS_Raw Bad input length, did not match hash"%string), this')
  else (Ok ret, this').

(** [PSS_Raw::verify]. *)
Definition PSS_Raw_verify (this : PSS_Raw) (coded raw : list byte) (key_bits : nat)
  : result bool :=
  let salt_size := 0 in
  '(ok, cell) <- pss_verify coded raw key_bits (Some salt_size) ;;
  let salt_size := match cell with Some v => v | None => salt_size end in
  if m_required_salt_len this && negb (salt_size =? m_salt_size this)
  then Ok false
  else Ok ok.

End Objects.

(** ** The codec in the spec's words

    The definitions of this section restate sections 4.1 and 4.2 of the
    spec; the properties below compare them with [pss_encode] and
    [pss_verify]. *)

Section Layout.

Context {hash : HashFunction} {mgf : MaskGenerator}.

(** *** The layout of RFC 8017, 9.1.1, in the spec's words

    [H_2 = Hash(8 zero bytes || digest || salt)], the data block
    [DB = 0x00 ... 0x00 || 0x01 || salt] of [dbLen] bytes, and
    [EM = maskedDB || H_2 || 0xBC] with the top bits of the first byte
    cleared. *)
Definition trailer_hash (msg salt : list byte) : list byte :=
  digest (repeat x00 8 ++ msg ++ salt).

Definition data_block (db_len : nat) (salt : list byte) : list byte :=
  repeat x00 (db_len - 1 - length salt) ++ [x01] ++ salt.

Definition clear_top (top_bits : nat) (DB : list byte) : list byte :=
  match DB with
  | [] => []
  | b :: DB' => U8.and b (U8.ff_shr top_bits) :: DB'
  end.

Definition masked_DB (msg salt : list byte) (output_bits : nat) : list byte :=
  let emLen := ceil_tobytes output_bits in
  let dbLen := emLen - output_length - 1 in
  clear_top (8 * emLen - output_bits)
            (xor_buf (data_block dbLen salt) (mgf1 (trailer_hash msg salt) dbLen)).

Definition EM_layout (msg salt : list byte) (output_bits : nat) : list byte :=
  masked_DB msg salt output_bits ++ trailer_hash msg salt ++ [xbc].

(** Step 5 of the spec: the representation left-padded with zero bytes
    to [keyBytes]. *)
Definition left_pad (pss_repr : list byte) (key_bytes : nat) : list byte :=
  repeat x00 (key_bytes - length pss_repr) ++ pss_repr.

(** The data block of [coded] after lines 105-112. *)
Definition unmasked_DB (coded : list byte) (top_bits : nat) : list byte :=
  let DB_size := length coded - output_length - 1 in
  clear_top top_bits
    (xor_buf (firstn DB_size coded) (mgf1 (H_of coded DB_size) DB_size)).

(** A byte that is neither 0x00 nor 0x01, with no 0x01 before it. *)
Definition bad_padding (DB : list byte) : Prop :=
  exists i b, nth_error DB i = Some b /\ b <> x00 /\ b <> x01 /\
              forall k, k < i -> nth_error DB k <> Some x01.

(** Step 6 of the spec: [topBits = 8*keyBytes - K], as line 100 computes
    it. *)
Definition top_bits_of (key_bits : nat) : nat := 8 * ((key_bits + 7) / 8) - key_bits.

(** Steps 9-11 of the spec on the padded representation [coded]. *)
Definition verdict_of (coded message_hash : list byte) (key_bits : nat) : verdict :=
  let DB := unmasked_DB coded (top_bits_of key_bits) in
  match find_salt_offset DB 0 with
  | None => Rejected
  | Some salt_offset =>
      if salt_offset =? 0 then Rejected
      else Compared
             (ct_is_equal (H_of coded (length DB))
                          (digest (repeat x00 8 ++ message_hash ++ skipn salt_offset DB))
                          output_length)
             (length DB - salt_offset)
  end.

(** Step 6, then steps 7-11. *)
Definition checked_verdict (coded message_hash : list byte) (key_bits : nat) : verdict :=
  if 8 - high_bit (nth 0 coded x00) <? top_bits_of key_bits then Rejected
  else verdict_of coded message_hash key_bits.

(** The structural checks of lines 73-87, in order. *)
Definition structurally_rejected (pss_repr message_hash : list byte) (key_bits : nat)
  : bool :=
  (key_bits <? 8 * output_length + 9)
  || negb (length message_hash =? output_length)
  || (ceil_tobytes key_bits <? length pss_repr)
  || (length pss_repr <=? 1)
  || negb (Byte.eqb (nth (length pss_repr - 1) pss_repr x00) xbc).

End Layout.

(** ** Two concrete collaborators, for running the codec

    Adler-32 is one of the library's [HashFunction]s with a 4-byte output;
    MGF1 is the mask generator of RFC 8017, B.2.1, over a hash. *)
Module Fixtures.

Definition adler32_step (st : N * N) (b : byte) : N * N :=
  let S1 := ((fst st + Byte.to_N b) mod 65521)%N in
  (S1, ((snd st + S1) mod 65521)%N).

Definition adler32 (m : list byte) : list byte :=
  let st := fold_left adler32_step m (1%N, 0%N) in
  [U8.u8 (snd st / 256); U8.u8 (snd st); U8.u8 (fst st / 256); U8.u8 (fst st)].

Definition Adler32 : HashFunction :=
  {| output_length := 4;
     digest := adler32;
     digest_length := fun _ => eq_refl |}.

Definition be32 (c : N) : list byte :=
  [U8.u8 (c / 16777216); U8.u8 (c / 65536); U8.u8 (c / 256); U8.u8 c].

Fixpoint mgf1_blocks {hash : HashFunction} (seed : list byte) (counter : N) (n : nat)
  : list byte :=
  match n with
  | 0 => []
  | S n' => digest (seed ++ be32 counter) ++ mgf1_blocks seed (counter + 1) n'
  end.

(** [out_len] blocks always cover [out_len] bytes of a hash with a
    non-empty digest; the zeros only make the function total for a hash
    of output length 0, for which the loop of MGF1 would not end. *)
Definition mgf1_stream {hash : HashFunction} (seed : list byte) (out_len : nat)
  : list byte :=
  firstn out_len (mgf1_blocks seed 0 out_len ++ repeat x00 out_len).

Definition MGF1 (hash : HashFunction) : MaskGenerator.
Proof.
  refine {| mgf1 := @mgf1_stream hash; mgf1_length := _ |}.
  intros seed out_len. unfold mgf1_stream.
  rewrite length_firstn, length_app, repeat_length. lia.
Defined.

Definition digest_01020304 : list byte := [x01; x02; x03; x04].
Definition digest_00040204 : list byte := [x00; x04; x02; x04].
Definition salt_aabbccdd : list byte := [xaa; xbb; xcc; xdd].

(** [pss_encode] of 01 02 03 04 with the salt AA BB CC DD at 80 bits,
    under Adler-32 and MGF1 over it. *)
Definition EM_80 : list byte :=
  [x04; xaf; xbb; x72; xd8; x07; x9a; x03; x19; xbc].

(** A [PSS_Raw] that requires the salt length and has bytes buffered. *)
Definition raw_required (salt_size : nat) (buffered : list byte) : PSS_Raw :=
  {| m_msg := buffered; m_salt_size := salt_size; m_required_salt_len := true |}.

End Fixtures.

(** ** The remaining members of the padding objects *)

(** Modelled from the spec: [RandomNumberGenerator] (rng.h) is not among
    the sources.  The spec's RNG collaborator: [random_vec(n)] returns [n]
    bytes; the generator is stateful, the state is passed along. *)
Class RandomNumberGenerator : Type := {
  rng_state : Type;
  random_vec : rng_state -> nat -> list byte * rng_state;
  random_vec_length : forall s n, length (fst (random_vec s n)) = n
}.

Section ObjectMembers.

Context {hash : HashFunction} {mgf : MaskGenerator} {RNG : RandomNumberGenerator}.

(** [PSSR::update]: [m_hash->update(input, length)], on the state of
    [m_hash]. *)
Definition PSSR_update (m_hash : Hash.state) (input : list byte) : Hash.state :=
  Hash.update m_hash input.

(** [PSSR::raw_data]: [m_hash->final_stdvec()]; the second component is
    [m_hash] after the call ([final] resets the object). *)
Definition PSSR_raw_data (m_hash : Hash.state) : list byte * Hash.state :=
  (Hash.final_stdvec m_hash, Hash.clear).

(** [PSSR::encoding_of]: the salt is drawn first, then [pss_encode] runs;
    the second component is the generator after the draw. *)
Definition PSSR_encoding_of (this : PSSR) (msg : list byte) (output_bits : nat)
                            (rng : rng_state)
  : result (list byte) * rng_state :=
  let salt := random_vec rng (pssr_salt_size this) in
  (pss_encode msg (fst salt) output_bits, snd salt).

(** [PSS_Raw::encoding_of]. *)
Definition PSS_Raw_encoding_of (this : PSS_Raw) (msg : list byte) (output_bits : nat)
                               (rng : rng_state)
  : result (list byte) * rng_state :=
  let salt := random_vec rng (m_salt_size this) in
  (pss_encode msg (fst salt) output_bits, snd salt).

End ObjectMembers.

(** A generator for running the objects: the bytes [s], [s+1], ... *)
Definition CounterRNG : RandomNumberGenerator.
Proof.
  refine {| rng_state := nat;
            random_vec := fun s n =>
              (map (fun i => U8.u8 (N.of_nat i)) (seq s n), s + n) |}.
  intros s n. simpl. now rewrite length_map, length_seq.
Defined.

(** ** Buffered_Filter (src/lib/filters/buf_filt.cpp)

    The filter owns a buffer of twice the block size and hands its input
    on to the two virtual members [buffered_block] and [buffered_final]
    of the derived class.  The model returns the calls made, in order,
    next to the object after the call.  [copy_mem] and the reads through
    pointers are checked, an access outside a buffer being
    [Raise Out_Of_Bounds]. *)
Module BufferedFilter.

Inductive exn : Type :=
| Invalid_Argument (what : String.string)
| Invalid_State (what : String.string)
| Out_Of_Bounds.

Inductive outcome (A : Type) : Type :=
| Done (a : A)
| Raise (e : exn).

Arguments Done {A} a.
Arguments Raise {A} e.

Definition and_then {A B : Type} (r : outcome A) (k : A -> outcome B) : outcome B :=
  match r with
  | Done a => k a
  | Raise e => Raise e
  end.

Declare Scope filter_scope.
Delimit Scope filter_scope with filter.
Notation "x <- c ;; k" := (and_then c (fun x => k))
  (at level 61, c at next level, right associativity) : filter_scope.
Notation "' p <- c ;; k" := (and_then c (fun x => let p := x in k))
  (at level 61, p pattern, c at next level, right associativity) : filter_scope.

(** A call of one of the virtual members, with the bytes it is given. *)
Inductive call : Type :=
| buffered_block (input : list byte)
| buffered_final (input : list byte).

Definition call_data (c : call) : list byte :=
  match c with
  | buffered_block input => input
  | buffered_final input => input
  end.

(** The bytes handed on by a sequence of calls. *)
Definition data_of (calls : list call) : list byte := concat (map call_data calls).

Record t : Type := {
  m_main_block_mod : nat;
  m_final_minimum : nat;
  m_buffer : list byte;
  m_buffer_pos : nat
}.

(** The [n] bytes at [&v[off]]. *)
Definition span (v : list byte) (off n : nat) : outcome (list byte) :=
  if off + n <=? length v then Done (firstn n (skipn off v)) else Raise Out_Of_Bounds.

(** Modelled from the spec: [copy_mem] (mem_ops.h) is not among the
    sources; [copy_mem(&buffer[off], in, n)] stores the [n] bytes read at
    [in] from offset [off] on. *)
Definition copy_mem (buffer : list byte) (off : nat) (input : list byte)
  : outcome (list byte) :=
  if off + length input <=? length buffer
  then Done (write_at buffer off input)
  else Raise Out_Of_Bounds.

(** [Buffered_Filter::Buffered_Filter(b, f)]. *)
Definition make (b f : nat) : outcome t :=
  if b =? 0 then Raise (Invalid_Argument "m_main_block_mod == 0"%string)
  else if b <? f then Raise (Invalid_Argument "m_final_minimum > m_main_block_mod"%string)
  else Done {| m_main_block_mod := b;
               m_final_minimum := f;
               m_buffer := repeat x00 (2 * b);
               m_buffer_pos := 0 |}.

(** [Buffered_Filter::write]. *)
Definition write (this : t) (input : list byte) : outcome (t * list call) :=
  (let input_size := length input in
   if input_size =? 0 then Done (this, [])
   else
     let b := m_main_block_mod this in
     let f := m_final_minimum this in
     '(buffer, pos, input, input_size, calls) <-
        (if b + f <=? m_buffer_pos this + input_size then
           let to_copy := Nat.min (length (m_buffer this) - m_buffer_pos this) input_size in
           chunk <- span input 0 to_copy ;;
           buffer <- copy_mem (m_buffer this) (m_buffer_pos this) chunk ;;
           let pos := m_buffer_pos this + to_copy in
           let input := skipn to_copy input in
           let input_size := input_size - to_copy in
           let available := Nat.min pos (pos + input_size - f) in
           let total_to_consume := available - available mod b in
           block <- span buffer 0 total_to_consume ;;
           let pos := pos - total_to_consume in
           rest <- span buffer total_to_consume pos ;;
           buffer <- copy_mem buffer 0 rest ;;
           Done (buffer, pos, input, input_size, [buffered_block block])
         else Done (m_buffer this, m_buffer_pos this, input, input_size, [])) ;;
     '(input, input_size, calls) <-
        (if f <=? input_size then
           let full_blocks := (input_size - f) / b in
           let to_copy := full_blocks * b in
           if 0 <? to_copy then
             block <- span input 0 to_copy ;;
             Done (skipn to_copy input, input_size - to_copy,
                   calls ++ [buffered_block block])
           else Done (input, input_size, calls)
         else Done (input, input_size, calls)) ;;
     tail <- span input 0 input_size ;;
     buffer <- copy_mem buffer pos tail ;;
     Done ({| m_main_block_mod := b;
              m_final_minimum := f;
              m_buffer := buffer;
              m_buffer_pos := pos + input_size |}, calls))%filter.

(** [Buffered_Filter::end_msg]. *)
Definition end_msg (this : t) : outcome (t * list call) :=
  (let b := m_main_block_mod this in
   let f := m_final_minimum this in
   if m_buffer_pos this <? f then
     Raise (Invalid_State "Buffered filter end_msg without enough input"%string)
   else
     let spare_blocks := (m_buffer_pos this - f) / b in
     calls <-
       (if 0 <? spare_blocks then
          let spare_bytes := b * spare_blocks in
          block <- span (m_buffer this) 0 spare_bytes ;;
          final <- span (m_buffer this) spare_bytes (m_buffer_pos this - spare_bytes) ;;
          Done [buffered_block block; buffered_final final]
        else
          final <- span (m_buffer this) 0 (m_buffer_pos this) ;;
          Done [buffered_final final]) ;;
     Done ({| m_main_block_mod := b;
              m_final_minimum := f;
              m_buffer := m_buffer this;
              m_buffer_pos := 0 |}, calls))%filter.

(** A message: the [write] calls for its pieces, then [end_msg]. *)
Fixpoint write_all (this : t) (pieces : list (list byte)) : outcome (t * list call) :=
  match pieces with
  | [] => Done (this, [])
  | piece :: pieces' =>
      ('(this, calls) <- write this piece ;;
       '(this, calls') <- write_all this pieces' ;;
       Done (this, calls ++ calls'))%filter
  end.

Definition message (this : t) (pieces : list (list byte)) : outcome (t * list call) :=
  ('(this, calls) <- write_all this pieces ;;
   '(this, calls') <- end_msg this ;;
   Done (this, calls ++ calls'))%filter.

(** The number of bytes of the remaining input that the second part of
    [write] (lines 59-69) hands on as whole blocks. *)
Definition direct_bytes (b f input_size : nat) : nat :=
  if f <=? input_size then (input_size - f) / b * b else 0.

(** The bytes the filter holds back. *)
Definition buffered (this : t) : list byte := firstn (m_buffer_pos this) (m_buffer this).

(** What the constructor establishes and [write] and [end_msg] keep. *)
Definition wf (this : t) : Prop :=
  0 < m_main_block_mod this /\
  m_final_minimum this <= m_main_block_mod this /\
  length (m_buffer this) = 2 * m_main_block_mod this /\
  m_buffer_pos this < m_main_block_mod this + m_final_minimum this.

(** The filter [Buffered_Filter(4, 2)] after construction. *)
Definition filter_4_2 : t :=
  {| m_main_block_mod := 4; m_final_minimum := 2;
     m_buffer := repeat x00 8; m_buffer_pos := 0 |}.

(** [filter_4_2] after [write] of the single byte 01. *)
Definition filter_4_2_one : t :=
  {| m_main_block_mod := 4; m_final_minimum := 2;
     m_buffer := x01 :: repeat x00 7; m_buffer_pos := 1 |}.

(** A call of [buffered_block] with a positive multiple of [b] bytes. *)
Definition whole_blocks (b : nat) (c : call) : Prop :=
  exists input, c = buffered_block input /\ 0 < length input /\ length input mod b = 0.

End BufferedFilter.

(** * Properties *)

(** ** Bytes: facts checked on all 256 values *)

Module U8Facts.
Import U8.

Lemma all_complete (b : byte) : In b all.
Proof.
  apply nth_error_In with (n := Byte.to_nat b).
  destruct b; reflexivity.
Qed.

Lemma forall_byte (P : byte -> bool) :
  forallb P all = true -> forall b, P b = true.
Proof.
  intros HP b. apply (proj1 (forallb_forall P all) HP), all_complete.
Qed.

Lemma forall_byte2 (P : byte -> byte -> bool) :
  forallb (fun a => forallb (P a) all) all = true -> forall a b, P a b = true.
Proof.
  intros HP a b.
  apply (forall_byte (P a)), (forall_byte (fun a => forallb (P a) all) HP).
Qed.

Lemma forall_below (n : nat) (P : nat -> bool) :
  forallb P (seq 0 n) = true -> forall k, k < n -> P k = true.
Proof.
  intros HP k Hk. apply (proj1 (forallb_forall P _) HP), in_seq. lia.
Qed.

Lemma eqb_eq (a b : byte) : Byte.eqb a b = true <-> a = b.
Proof.
  split; [apply Byte.byte_dec_bl | apply Byte.byte_dec_lb].
Qed.

Lemma eqb_neq (a b : byte) : Byte.eqb a b = false <-> a <> b.
Proof.
  split.
  - apply Byte.eqb_false.
  - intros Hne. destruct (Byte.eqb a b) eqn:E; [|reflexivity].
    now apply eqb_eq in E.
Qed.

Lemma to_N_inj (a b : byte) : Byte.to_N a = Byte.to_N b -> a = b.
Proof.
  intros E. pose proof (Byte.of_to_N a) as Ha. rewrite E, Byte.of_to_N in Ha.
  congruence.
Qed.

(** Removing a mask that was xored in gives the byte back. *)
Lemma xor_cancel (a m : byte) : xor (xor a m) m = a.
Proof.
  apply eqb_eq.
  apply (forall_byte2 (fun a m => Byte.eqb (xor (xor a m) m) a)).
  vm_compute. reflexivity.
Qed.

(** The first byte of the data block: [d] is 0x00 or 0x01, the mask byte
    [m] is arbitrary, and at most 7 top bits are cleared on both sides. *)
Lemma first_byte_roundtrip (d m : byte) (t : nat) :
  t < 8 -> d = x00 \/ d = x01 ->
  and (xor (and (xor d m) (ff_shr t)) m) (ff_shr t) = d.
Proof.
  intros Ht Hd. apply eqb_eq.
  revert t Ht.
  apply (forall_below 8
           (fun t => Byte.eqb (and (xor (and (xor d m) (ff_shr t)) m) (ff_shr t)) d)).
  revert m.
  apply (forall_byte
           (fun m => forallb
              (fun t => Byte.eqb (and (xor (and (xor d m) (ff_shr t)) m) (ff_shr t)) d)
              (seq 0 8))).
  destruct Hd; subst d; vm_compute; reflexivity.
Qed.

(** A byte whose [t] top bits were cleared has bit length at most
    [8 - t]. *)
Lemma high_bit_and_ff_shr (x : byte) (t : nat) :
  t < 8 -> high_bit (and x (ff_shr t)) <= 8 - t.
Proof.
  intros Ht. apply Nat.leb_le. revert t Ht.
  apply (forall_below 8 (fun t => high_bit (and x (ff_shr t)) <=? 8 - t)).
  revert x.
  apply (forall_byte
           (fun x => forallb (fun t => high_bit (and x (ff_shr t)) <=? 8 - t) (seq 0 8))).
  vm_compute. reflexivity.
Qed.

Lemma high_bit_le_8 (x : byte) : high_bit x <= 8.
Proof.
  destruct x; vm_compute; lia.
Qed.

Lemma and_ff_shr_top_bits (x : byte) (t i : nat) :
  t < 8 -> 8 - t <= i -> i < 8 -> bit (and x (ff_shr t)) i = false.
Proof.
  intros Ht Hlo Hhi.
  assert (H : (8 - t <=? i) && bit (and x (ff_shr t)) i = false);
    [|rewrite (proj2 (Nat.leb_le _ _) Hlo) in H; exact H].
  apply negb_true_iff.
  revert i Hhi Hlo. intros i Hhi _. revert i Hhi.
  apply (forall_below 8 (fun i => negb ((8 - t <=? i) && bit (and x (ff_shr t)) i))).
  revert t Ht.
  apply (forall_below 8
           (fun t => forallb (fun i => negb ((8 - t <=? i) && bit (and x (ff_shr t)) i))
                             (seq 0 8))).
  revert x.
  apply (forall_byte
           (fun x => forallb
              (fun t => forallb (fun i => negb ((8 - t <=? i) && bit (and x (ff_shr t)) i))
                                (seq 0 8)) (seq 0 8))).
  vm_compute. reflexivity.
Qed.

End U8Facts.

(** ** Lists and buffers *)

Lemma skipn_repeat {A : Type} (a : A) (m k : nat) :
  skipn m (repeat a k) = repeat a (k - m).
Proof.
  revert m; induction k as [|k IH]; intros [|m]; simpl; auto.
Qed.

Lemma ceil_tobytes_bounds (bits : nat) :
  bits <= 8 * ceil_tobytes bits /\ 8 * ceil_tobytes bits < bits + 8.
Proof.
  unfold ceil_tobytes.
  pose proof (Nat.div_mod_eq (bits + 7) 8) as E.
  pose proof (Nat.mod_upper_bound (bits + 7) 8) as B.
  lia.
Qed.

Lemma xor_buf_length (out mask : list byte) :
  length (xor_buf out mask) = length out.
Proof.
  revert mask; induction out as [|o out IH]; intros [|m mask]; simpl; auto.
Qed.

Lemma xor_buf_cancel (out mask : list byte) :
  xor_buf (xor_buf out mask) mask = out.
Proof.
  revert mask; induction out as [|o out IH]; intros [|m mask]; simpl; auto.
  now rewrite U8Facts.xor_cancel, IH.
Qed.

Module StufferFacts.
Import BufferStuffer.

(** An append that fits stores the bytes right after what was stored
    before and leaves the rest of the buffer as it was. *)
Lemma append_fits (pre rest : list byte) (s : t) (bs : list byte) :
  cursor s = length pre ->
  length bs <= length rest ->
  append (pre ++ rest) s bs
  = Ok ((pre ++ bs) ++ skipn (length bs) rest, {| cursor := length (pre ++ bs) |}).
Proof.
  intros Hc Hfit. unfold append, remaining_capacity, write_at.
  rewrite length_app, Hc.
  replace (length bs <=? length pre + length rest - length pre) with true
    by (symmetry; apply Nat.leb_le; lia).
  rewrite firstn_app, firstn_all, Nat.sub_diag. simpl firstn. rewrite app_nil_r.
  rewrite skipn_app, (skipn_all2 pre) by lia.
  replace (length pre + length bs - length pre) with (length bs) by lia.
  rewrite <- app_assoc, length_app. reflexivity.
Qed.

End StufferFacts.

Section CodecFacts.

Context {hash : HashFunction} {mgf : MaskGenerator}.

Lemma trailer_hash_length msg salt : length (trailer_hash msg salt) = output_length.
Proof. apply digest_length. Qed.

Lemma data_block_length db_len salt :
  length salt + 1 <= db_len -> length (data_block db_len salt) = db_len.
Proof.
  intros Hle. unfold data_block. rewrite !length_app, repeat_length. simpl. lia.
Qed.

Lemma clear_top_length t DB : length (clear_top t DB) = length DB.
Proof. now destruct DB. Qed.

Lemma modify_at_0 (v rest : list byte) (t : nat) :
  v <> [] ->
  modify_at (v ++ rest) 0 (fun b => U8.and b (U8.ff_shr t)) = Ok (clear_top t v ++ rest).
Proof.
  destruct v as [|b v]; [congruence|]. reflexivity.
Qed.

Lemma mgf1_mask_prefix (seed DB rest : list byte) :
  mgf1_mask seed (DB ++ rest) (length DB)
  = Ok (xor_buf DB (mgf1 seed (length DB)) ++ rest).
Proof.
  unfold mgf1_mask. rewrite length_app.
  replace (length DB <=? length DB + length rest) with true
    by (symmetry; apply Nat.leb_le; lia).
  rewrite firstn_app, firstn_all, Nat.sub_diag, skipn_app, skipn_all, Nat.sub_diag.
  simpl. now rewrite app_nil_r.
Qed.

Lemma masked_DB_length msg salt output_bits :
  8 * output_length + 8 * length salt + 9 <= output_bits ->
  length (masked_DB msg salt output_bits)
  = ceil_tobytes output_bits - output_length - 1.
Proof.
  intros Hbits. unfold masked_DB.
  rewrite clear_top_length, xor_buf_length, data_block_length; [reflexivity|].
  pose proof (ceil_tobytes_bounds output_bits). lia.
Qed.

Lemma EM_layout_length msg salt output_bits :
  8 * output_length + 8 * length salt + 9 <= output_bits ->
  length (EM_layout msg salt output_bits) = ceil_tobytes output_bits.
Proof.
  intros Hbits. unfold EM_layout.
  rewrite !length_app, masked_DB_length, trailer_hash_length by assumption.
  pose proof (ceil_tobytes_bounds output_bits). simpl. lia.
Qed.

Lemma hash_bracket (a b c : list byte) :
  Hash.final_stdvec (Hash.update (Hash.update (Hash.update Hash.clear a) b) c)
  = digest (a ++ b ++ c).
Proof.
  unfold Hash.final_stdvec, Hash.update, Hash.clear. simpl.
  now rewrite <- app_assoc.
Qed.

(** The stuffer over a buffer whose unwritten part is still zero. *)
Lemma append_zero_tail (pre : list byte) (k : nat) (s : BufferStuffer.t) (bs : list byte) :
  BufferStuffer.cursor s = length pre ->
  length bs <= k ->
  BufferStuffer.append (pre ++ repeat x00 k) s bs
  = Ok ((pre ++ bs) ++ repeat x00 (k - length bs),
        {| BufferStuffer.cursor := length (pre ++ bs) |}).
Proof.
  intros Hc Hfit.
  rewrite StufferFacts.append_fits, skipn_repeat; auto.
  now rewrite repeat_length.
Qed.

(** *** What pss_encode computes *)
Lemma pss_encode_layout (msg salt : list byte) (output_bits : nat) :
  length msg = output_length ->
  8 * output_length + 8 * length salt + 9 <= output_bits ->
  pss_encode msg salt output_bits = Ok (EM_layout msg salt output_bits).
Proof.
  intros Hmsg Hbits.
  pose proof (ceil_tobytes_bounds output_bits) as [Hlo Hhi].
  unfold pss_encode, EM_layout, masked_DB.
  rewrite (proj2 (Nat.eqb_eq _ _) Hmsg). simpl negb. cbv iota.
  replace (output_bits <? 8 * output_length + 8 * length salt + 9) with false
    by (symmetry; apply Nat.ltb_ge; lia).
  cbv zeta. rewrite hash_bracket. fold (trailer_hash msg salt).
  pose proof (trailer_hash_length msg salt) as HH.
  set (Hh := trailer_hash msg salt) in *.
  set (n := ceil_tobytes output_bits) in *.
  set (db_len := n - output_length - 1).
  set (z := db_len - 1 - length salt).
  unfold BufferStuffer.append_fill.
  replace (BufferStuffer.remaining_capacity (repeat x00 n) BufferStuffer.make
           - (1 + length salt + length Hh + 1)) with z
    by (unfold BufferStuffer.remaining_capacity; simpl; rewrite repeat_length; lia).
  (* zero fill *)
  change (repeat x00 n) with ([] ++ repeat x00 n).
  rewrite (append_zero_tail [] n BufferStuffer.make (repeat x00 z))
    by (simpl; try rewrite repeat_length; lia).
  cbv beta iota delta [bind].
  (* marker *)
  rewrite append_zero_tail by (simpl; try rewrite repeat_length; lia).
  cbv beta iota delta [bind].
  (* salt *)
  rewrite append_zero_tail
    by (simpl; rewrite ?length_app, ?repeat_length; simpl; lia).
  cbv beta iota delta [bind].
  (* mask *)
  assert (HDB : (([] ++ repeat x00 z) ++ repeat x01 1) ++ salt = data_block db_len salt)
    by (unfold data_block; simpl; now rewrite <- app_assoc).
  rewrite HDB.
  assert (HDBlen : length (data_block db_len salt) = db_len)
    by (apply data_block_length; lia).
  rewrite <- HDBlen at 2.
  rewrite mgf1_mask_prefix, HDBlen.
  cbv beta iota delta [bind].
  rewrite modify_at_0
    by (intros E; apply (f_equal (@length byte)) in E;
        rewrite xor_buf_length, HDBlen in E; simpl in E; lia).
  cbv beta iota delta [bind].
  set (M := clear_top (8 * n - output_bits)
              (xor_buf (data_block db_len salt) (mgf1 Hh db_len))).
  assert (HM : length M = db_len)
    by (unfold M; now rewrite clear_top_length, xor_buf_length).
  rewrite !repeat_length. simpl (length (repeat x01 1)).
  rewrite append_zero_tail by (simpl; lia).
  cbv beta iota delta [bind].
  rewrite append_zero_tail by (simpl; lia).
  cbv beta iota delta [bind].
  unfold BufferStuffer.full, BufferStuffer.remaining_capacity.
  simpl BufferStuffer.cursor.
  replace (n - z - 1 - length salt - length Hh - length (repeat xbc 1)) with 0
    by (simpl; lia).
  simpl (repeat x00 0). rewrite app_nil_r, Nat.sub_diag. simpl.
  now rewrite <- app_assoc.
Qed.

(** *** The steps of pss_verify *)

Lemma left_pad_length pss_repr key_bytes :
  length pss_repr <= key_bytes -> length (left_pad pss_repr key_bytes) = key_bytes.
Proof.
  intros Hle. unfold left_pad. rewrite length_app, repeat_length. lia.
Qed.

Lemma left_pad_full pss_repr key_bytes :
  key_bytes <= length pss_repr -> left_pad pss_repr key_bytes = pss_repr.
Proof.
  intros Hle. unfold left_pad.
  replace (key_bytes - length pss_repr) with 0 by lia. reflexivity.
Qed.

Lemma pad_coded_spec pss_repr key_bytes :
  length pss_repr <= key_bytes ->
  pad_coded pss_repr key_bytes = Ok (left_pad pss_repr key_bytes).
Proof.
  intros Hle. unfold pad_coded.
  destruct (length pss_repr <? key_bytes) eqn:Hlt.
  - apply Nat.ltb_lt in Hlt. unfold BufferStuffer.append_fill.
    change (repeat x00 key_bytes) with ([] ++ repeat x00 key_bytes).
    rewrite append_zero_tail by (simpl; try rewrite repeat_length; lia).
    cbv beta iota delta [bind].
    rewrite append_zero_tail by (simpl; try rewrite repeat_length; lia).
    cbv beta iota delta [bind].
    rewrite repeat_length.
    replace (key_bytes - (key_bytes - length pss_repr) - length pss_repr) with 0 by lia.
    simpl. now rewrite app_nil_r.
  - apply Nat.ltb_ge in Hlt. now rewrite left_pad_full by lia.
Qed.

Lemma at_in_range (v : list byte) (i : nat) :
  i < length v -> at_ v i = Ok (nth i v x00).
Proof.
  intros Hi. unfold at_. now rewrite (nth_error_nth' v x00 Hi).
Qed.

Lemma unmasked_DB_length coded top_bits :
  length (unmasked_DB coded top_bits) = length coded - output_length - 1.
Proof.
  unfold unmasked_DB. rewrite clear_top_length, xor_buf_length, length_firstn. lia.
Qed.

Lemma unmask_spec coded top_bits :
  output_length + 2 <= length coded ->
  unmask coded top_bits
  = Ok (unmasked_DB coded top_bits
        ++ skipn (length coded - output_length - 1) coded).
Proof.
  intros Hlen. unfold unmask, unmasked_DB.
  set (DB_size := length coded - output_length - 1).
  assert (HDB : length (firstn DB_size coded) = DB_size)
    by (rewrite length_firstn; lia).
  unfold mgf1_mask.
  replace (DB_size <=? length coded) with true
    by (symmetry; apply Nat.leb_le; lia).
  cbv beta iota delta [bind].
  apply modify_at_0.
  intros E. apply (f_equal (@length byte)) in E.
  rewrite xor_buf_length, HDB in E. simpl in E. lia.
Qed.

(** *** The marker scan *)

Lemma find_salt_offset_zeros (k j : nat) (rest : list byte) :
  find_salt_offset (repeat x00 k ++ x01 :: rest) j = Some (j + k + 1).
Proof.
  revert j; induction k as [|k IH]; intros j; simpl.
  - f_equal; lia.
  - rewrite IH. f_equal; lia.
Qed.

(** When the scan finds the marker, the block is zeros, 0x01, salt. *)
Lemma find_salt_offset_found (DB : list byte) (j off : nat) :
  find_salt_offset DB j = Some off -> off <> 0 ->
  j < off /\ off <= j + length DB /\
  DB = repeat x00 (off - j - 1) ++ x01 :: skipn (off - j) DB.
Proof.
  revert j; induction DB as [|b DB IH]; intros j Hf Hne; simpl in Hf.
  - congruence.
  - destruct (Byte.eqb b x01) eqn:E1.
    + apply U8Facts.eqb_eq in E1. subst b. injection Hf as <-.
      replace (j + 1 - j - 1) with 0 by lia.
      replace (j + 1 - j) with 1 by lia. simpl. repeat split; lia.
    + destruct (Byte.eqb b x00) eqn:E0; simpl in Hf; [|discriminate].
      apply U8Facts.eqb_eq in E0. subst b.
      destruct (IH _ Hf Hne) as (Hlt & Hle & HDB).
      replace (off - j - 1) with (S (off - (j + 1) - 1)) by lia.
      replace (off - j) with (S (off - (j + 1))) by lia.
      simpl. repeat split; try lia. now rewrite <- HDB.
Qed.

Lemma find_salt_offset_bad (DB : list byte) (j : nat) :
  bad_padding DB -> find_salt_offset DB j = None.
Proof.
  intros (i & b & Hi & H0 & H1 & Hbefore).
  revert j i Hi Hbefore; induction DB as [|c DB IH]; intros j i Hi Hbefore.
  - now destruct i.
  - simpl. destruct i as [|i]; simpl in Hi.
    + injection Hi as ->.
      rewrite (proj2 (U8Facts.eqb_neq b x01) H1), (proj2 (U8Facts.eqb_neq b x00) H0).
      reflexivity.
    + destruct (Byte.eqb c x01) eqn:E1.
      * apply U8Facts.eqb_eq in E1. subst c.
        exfalso. apply (Hbefore 0); [lia | reflexivity].
      * destruct (Byte.eqb c x00); simpl; [|reflexivity].
        apply (IH _ i Hi). intros k Hk. apply (Hbefore (S k)). lia.
Qed.

Lemma find_salt_offset_no_marker (DB : list byte) (j : nat) :
  ~ In x01 DB ->
  find_salt_offset DB j = None \/ find_salt_offset DB j = Some 0.
Proof.
  revert j; induction DB as [|c DB IH]; intros j Hno; simpl.
  - now right.
  - destruct (Byte.eqb c x01) eqn:E1.
    + apply U8Facts.eqb_eq in E1. subst c. exfalso. apply Hno. now left.
    + destruct (Byte.eqb c x00); simpl; [|now left].
      apply IH. intros Hin. apply Hno. now right.
Qed.

(** *** The comparison *)

Lemma ct_fold_zero (l : list (byte * byte)) (acc : N) :
  fold_left (fun acc p => N.lor acc (N.lxor (Byte.to_N (fst p)) (Byte.to_N (snd p))))
            l acc = 0%N
  <-> acc = 0%N /\ Forall (fun p => fst p = snd p) l.
Proof.
  revert acc; induction l as [|[a b] l IH]; intros acc; simpl.
  - split; [intros ->; split; constructor | tauto].
  - rewrite IH, N.lor_eq_0_iff, N.lxor_eq_0_iff. split.
    + intros [[Hacc Hab] Hl]. split; [assumption|].
      constructor; [now apply U8Facts.to_N_inj | assumption].
    + intros [Hacc Hall]. inversion Hall as [|? ? Hab Hl]; subst.
      simpl in Hab. subst. tauto.
Qed.

Lemma ct_is_equal_spec (x y : list byte) :
  length x = length y ->
  ct_is_equal x y (length x) = true <-> x = y.
Proof.
  intros Hlen. unfold ct_is_equal.
  rewrite firstn_all, Hlen, firstn_all, N.eqb_eq, ct_fold_zero.
  split.
  - intros [_ Hall]. revert y Hlen Hall.
    induction x as [|a x IH]; intros [|b y] Hlen Hall; simpl in *; try congruence.
    inversion Hall as [|? ? Hab Hl]; subst. simpl in Hab. subst.
    f_equal. apply IH; [lia | assumption].
  - intros <-. split; [reflexivity|].
    clear Hlen. induction x as [|a x IH]; simpl; constructor; auto.
Qed.

(** *** pss_verify once the structural checks are passed *)

Lemma top_bits_of_lt_8 key_bits : top_bits_of key_bits < 8.
Proof.
  pose proof (ceil_tobytes_bounds key_bits). unfold top_bits_of, ceil_tobytes in *. lia.
Qed.

Lemma pss_verify_core_checked (pss_repr message_hash : list byte) (key_bits : nat) :
  8 * output_length + 9 <= key_bits ->
  length message_hash = output_length ->
  1 < length pss_repr ->
  length pss_repr <= ceil_tobytes key_bits ->
  nth (length pss_repr - 1) pss_repr x00 = xbc ->
  pss_verify_core pss_repr message_hash key_bits
  = Ok (checked_verdict (left_pad pss_repr (ceil_tobytes key_bits)) message_hash key_bits).
Proof.
  intros Hkey Hmh Hlen1 Hlen2 Hlast.
  pose proof (ceil_tobytes_bounds key_bits) as [Hlo Hhi].
  unfold pss_verify_core, checked_verdict.
  replace (key_bits <? 8 * output_length + 9) with false
    by (symmetry; apply Nat.ltb_ge; lia).
  rewrite (proj2 (Nat.eqb_eq _ _) Hmh).
  replace (ceil_tobytes key_bits <? length pss_repr) with false
    by (symmetry; apply Nat.ltb_ge; lia).
  replace (length pss_repr <=? 1) with false
    by (symmetry; apply Nat.leb_gt; lia).
  simpl negb. simpl orb. cbv iota zeta.
  rewrite at_in_range by lia. cbv beta iota delta [bind].
  rewrite Hlast. simpl negb. cbv iota.
  rewrite pad_coded_spec by assumption. cbv beta iota delta [bind].
  set (coded := left_pad pss_repr (ceil_tobytes key_bits)).
  assert (Hcoded : length coded = ceil_tobytes key_bits)
    by (apply left_pad_length; assumption).
  rewrite at_in_range by lia. cbv beta iota delta [bind].
  fold (top_bits_of key_bits).
  destruct (8 - high_bit (nth 0 coded x00) <? top_bits_of key_bits); [reflexivity|].
  rewrite unmask_spec by lia. cbv beta iota delta [bind].
  unfold verdict_of.
  pose proof (unmasked_DB_length coded (top_bits_of key_bits)) as HDBlen.
  set (DB := unmasked_DB coded (top_bits_of key_bits)) in *.
  set (DB_size := length coded - output_length - 1) in *.
  clearbody DB DB_size. subst DB_size.
  rewrite firstn_app, firstn_all, Nat.sub_diag. simpl (firstn 0 _). rewrite app_nil_r.
  destruct (find_salt_offset DB 0) as [salt_offset|] eqn:Hscan; [|reflexivity].
  destruct (salt_offset =? 0) eqn:Hoff; [reflexivity|].
  apply Nat.eqb_neq in Hoff.
  destruct (find_salt_offset_found DB 0 salt_offset Hscan Hoff) as (_ & Hle & _).
  rewrite hash_bracket. do 3 f_equal.
  - unfold H_of. now rewrite skipn_app, skipn_all, Nat.sub_diag.
  - do 3 f_equal.
    rewrite skipn_app.
    replace (salt_offset - length DB) with 0 by lia. simpl (skipn 0 _).
    rewrite firstn_app.
    replace (length DB - salt_offset - length (skipn salt_offset DB)) with 0
      by (rewrite length_skipn; lia).
    simpl (firstn 0 _). rewrite app_nil_r.
    apply firstn_all2. rewrite length_skipn. lia.
Qed.

(** *** Verifying what pss_encode produced *)

Lemma clear_top_xor_roundtrip (t : nat) (DB mask : list byte) :
  t < 8 -> length mask = length DB ->
  hd x00 DB = x00 \/ hd x00 DB = x01 ->
  clear_top t (xor_buf (clear_top t (xor_buf DB mask)) mask) = DB.
Proof.
  intros Ht Hlen Hhd.
  destruct DB as [|d DB], mask as [|m mask]; simpl in *; try discriminate; auto.
  rewrite U8Facts.first_byte_roundtrip by assumption.
  now rewrite xor_buf_cancel.
Qed.

Lemma data_block_hd db_len salt :
  hd x00 (data_block db_len salt) = x00 \/ hd x00 (data_block db_len salt) = x01.
Proof.
  unfold data_block. destruct (db_len - 1 - length salt); simpl; auto.
Qed.

Lemma masked_DB_hd_high_bit msg salt output_bits :
  8 * output_length + 8 * length salt + 9 <= output_bits ->
  high_bit (nth 0 (masked_DB msg salt output_bits) x00) <= 8 - top_bits_of output_bits.
Proof.
  intros Hbits.
  pose proof (masked_DB_length msg salt output_bits Hbits) as Hlen.
  pose proof (ceil_tobytes_bounds output_bits) as [Hlo Hhi].
  pose proof (top_bits_of_lt_8 output_bits) as Ht.
  unfold masked_DB in *.
  change (8 * ceil_tobytes output_bits - output_bits) with (top_bits_of output_bits) in *.
  destruct (xor_buf _ _) as [|b l]; simpl in *; [lia|].
  now apply U8Facts.high_bit_and_ff_shr.
Qed.

Lemma unmasked_DB_of_EM_layout msg salt output_bits :
  8 * output_length + 8 * length salt + 9 <= output_bits ->
  unmasked_DB (EM_layout msg salt output_bits) (top_bits_of output_bits)
  = data_block (ceil_tobytes output_bits - output_length - 1) salt.
Proof.
  intros Hbits.
  pose proof (masked_DB_length msg salt output_bits Hbits) as HM.
  pose proof (ceil_tobytes_bounds output_bits) as [Hlo Hhi].
  unfold unmasked_DB. rewrite EM_layout_length by assumption.
  rewrite <- HM. unfold EM_layout, H_of.
  rewrite firstn_app, firstn_all, Nat.sub_diag, skipn_app, skipn_all, Nat.sub_diag.
  simpl (firstn 0 _). simpl (skipn 0 _). rewrite app_nil_r. simpl (skipn _ []).
  simpl ([] ++ _).
  rewrite <- (trailer_hash_length msg salt) at 1.
  rewrite firstn_app, firstn_all, Nat.sub_diag. simpl (firstn 0 _). rewrite app_nil_r.
  rewrite HM. unfold masked_DB.
  change (8 * ceil_tobytes output_bits - output_bits) with (top_bits_of output_bits).
  apply clear_top_xor_roundtrip.
  - apply top_bits_of_lt_8.
  - rewrite mgf1_length, data_block_length; lia.
  - apply data_block_hd.
Qed.

Lemma pss_verify_core_encoded (msg msg' salt : list byte) (output_bits : nat) :
  length msg = output_length ->
  length msg' = output_length ->
  8 * output_length + 8 * length salt + 9 <= output_bits ->
  pss_verify_core (EM_layout msg salt output_bits) msg' output_bits
  = Ok (Compared (ct_is_equal (trailer_hash msg salt) (trailer_hash msg' salt)
                              output_length)
                 (length salt)).
Proof.
  intros Hmsg Hmsg' Hbits.
  pose proof (ceil_tobytes_bounds output_bits) as [Hlo Hhi].
  pose proof (EM_layout_length msg salt output_bits Hbits) as HEM.
  pose proof (masked_DB_length msg salt output_bits Hbits) as HM.
  rewrite pss_verify_core_checked; try lia; try assumption.
  - rewrite left_pad_full by lia. unfold checked_verdict.
    replace (nth 0 (EM_layout msg salt output_bits) x00)
      with (nth 0 (masked_DB msg salt output_bits) x00)
      by (unfold EM_layout; rewrite app_nth1; [reflexivity | lia]).
    pose proof (masked_DB_hd_high_bit msg salt output_bits Hbits) as Hhb.
    pose proof (top_bits_of_lt_8 output_bits) as Ht.
    replace (8 - high_bit (nth 0 (masked_DB msg salt output_bits) x00)
             <? top_bits_of output_bits) with false
      by (symmetry; apply Nat.ltb_ge; lia).
    unfold verdict_of. rewrite unmasked_DB_of_EM_layout by assumption.
    set (db_len := ceil_tobytes output_bits - output_length - 1) in *.
    assert (HDB : length (data_block db_len salt) = db_len)
      by (apply data_block_length; lia).
    rewrite HDB.
    set (z := db_len - 1 - length salt).
    change (data_block db_len salt) with (repeat x00 z ++ x01 :: salt).
    rewrite find_salt_offset_zeros.
    replace (0 + z + 1 =? 0) with false by (symmetry; apply Nat.eqb_neq; lia).
    assert (Hskip : skipn (0 + z + 1) (repeat x00 z ++ x01 :: salt) = salt).
    { replace (0 + z + 1) with (length (repeat x00 z ++ [x01]))
        by (rewrite length_app, repeat_length; simpl; lia).
      change (x01 :: salt) with ([x01] ++ salt).
      now rewrite app_assoc, skipn_app, skipn_all, Nat.sub_diag. }
    rewrite Hskip. fold (trailer_hash msg' salt).
    f_equal. f_equal.
    + f_equal.
      unfold H_of, EM_layout. rewrite <- HM.
      rewrite skipn_app, skipn_all, Nat.sub_diag. simpl.
      rewrite <- (trailer_hash_length msg salt) at 1.
      now rewrite firstn_app, firstn_all, Nat.sub_diag, app_nil_r.
    + unfold z, db_len. lia.
  - unfold EM_layout. rewrite app_assoc, app_nth2; rewrite !length_app; simpl; [|lia].
    now replace (length (masked_DB msg salt output_bits)
                 + length (trailer_hash msg salt) + 1 - 1
                 - (length (masked_DB msg salt output_bits)
                    + length (trailer_hash msg salt))) with 0 by lia.
Qed.

(** *** pss_verify on every input *)

Lemma pss_verify_core_spec (pss_repr message_hash : list byte) (key_bits : nat) :
  pss_verify_core pss_repr message_hash key_bits
  = Ok (if structurally_rejected pss_repr message_hash key_bits then Rejected
        else checked_verdict (left_pad pss_repr (ceil_tobytes key_bits))
                             message_hash key_bits).
Proof.
  unfold structurally_rejected.
  destruct (key_bits <? 8 * output_length + 9) eqn:Hkey;
    [unfold pss_verify_core; now rewrite Hkey|].
  destruct (length message_hash =? output_length) eqn:Hmh;
    [|unfold pss_verify_core; now rewrite Hkey, Hmh].
  destruct (ceil_tobytes key_bits <? length pss_repr) eqn:Hlen2;
    [unfold pss_verify_core; now rewrite Hkey, Hmh, Hlen2|].
  destruct (length pss_repr <=? 1) eqn:Hlen1;
    [unfold pss_verify_core; now rewrite Hkey, Hmh, Hlen2, Hlen1|].
  apply Nat.ltb_ge in Hkey. apply Nat.eqb_eq in Hmh.
  apply Nat.ltb_ge in Hlen2. apply Nat.leb_gt in Hlen1.
  destruct (Byte.eqb (nth (length pss_repr - 1) pss_repr x00) xbc) eqn:Hlast;
    simpl orb; simpl negb; cbv iota.
  - apply U8Facts.eqb_eq in Hlast. now apply pss_verify_core_checked.
  - unfold pss_verify_core.
    replace (key_bits <? 8 * output_length + 9) with false
      by (symmetry; apply Nat.ltb_ge; lia).
    rewrite (proj2 (Nat.eqb_eq _ _) Hmh).
    replace (ceil_tobytes key_bits <? length pss_repr) with false
      by (symmetry; apply Nat.ltb_ge; lia).
    replace (length pss_repr <=? 1) with false
      by (symmetry; apply Nat.leb_gt; lia).
    simpl negb. simpl orb. cbv iota zeta.
    rewrite at_in_range by lia. cbv beta iota delta [bind].
    now rewrite Hlast.
Qed.

Lemma pss_verify_spec (pss_repr message_hash : list byte) (key_bits : nat)
                      (out : option nat) :
  pss_verify pss_repr message_hash key_bits out
  = Ok (match (if structurally_rejected pss_repr message_hash key_bits then Rejected
               else checked_verdict (left_pad pss_repr (ceil_tobytes key_bits))
                                    message_hash key_bits) with
        | Rejected => (false, out)
        | Compared true salt_size =>
            (true, match out with Some _ => Some salt_size | None => None end)
        | Compared false _ => (false, out)
        end).
Proof.
  unfold pss_verify. rewrite pss_verify_core_spec. cbv beta iota delta [bind].
  destruct (if structurally_rejected _ _ _ then _ else _) as [|[|] n];
    try reflexivity.
  now destruct out.
Qed.

(** *** The subtractions of the source

    On the paths that reach them, the differences computed by
    [pss_encode] (lines 39, 47, 51) and by [pss_verify] (lines 85, 93,
    100, 101, 106, 128) are differences of a larger and a smaller value,
    so that the truncated subtraction of [nat] and the one of [size_t]
    agree. *)
Lemma subtractions_exact (bits salt_len : nat) (b : byte)
                         (pss_repr DB : list byte) (salt_offset : nat) :
  8 * output_length + 8 * salt_len + 9 <= bits ->
  bits <= 8 * ceil_tobytes bits /\
  output_length + 1 <= ceil_tobytes bits /\
  1 + salt_len + output_length + 1 <= ceil_tobytes bits /\
  bits <= 8 * ((bits + 7) / 8) /\
  high_bit b <= 8 /\
  (find_salt_offset DB 0 = Some salt_offset -> salt_offset <= length DB).
Proof.
  intros Hbits. pose proof (ceil_tobytes_bounds bits) as [Hlo Hhi].
  pose proof (U8Facts.high_bit_le_8 b).
  repeat split; try lia; try assumption.
  intros Hscan. destruct (Nat.eq_dec salt_offset 0) as [->|Hne]; [lia|].
  destruct (find_salt_offset_found DB 0 salt_offset Hscan Hne) as (_ & Hle & _). lia.
Qed.

End CodecFacts.

(** * The claims *)

Section Claims.

Context {hash : HashFunction} {mgf : MaskGenerator}.

(** C1 (round trip).  For every digest [d] of the hash's output length,
    every salt [s] and every bit count [N] with
    [8*H + 8*S + 9 <= N], [pss_encode d s N] returns an [EM], and
    [pss_verify] of that [EM] against [d] at [key_bits = N] returns
    [true]; the salt length it reports through [out_salt_size] is the
    length of [s] (and a null [out_salt_size] stays null). *)
Theorem pss_round_trip (d s : list byte) (N : nat) :
  length d = output_length ->
  8 * output_length + 8 * length s + 9 <= N ->
  exists EM,
    pss_encode d s N = Ok EM /\
    pss_verify_core EM d N = Ok (Compared true (length s)) /\
    (forall v, pss_verify EM d N (Some v) = Ok (true, Some (length s))) /\
    pss_verify EM d N None = Ok (true, None).
Proof.
  intros Hd HN. exists (EM_layout d s N).
  assert (Hcore : pss_verify_core (EM_layout d s N) d N
                  = Ok (Compared true (length s))).
  { rewrite pss_verify_core_encoded by assumption.
    rewrite <- (trailer_hash_length d s) at 1.
    now rewrite (proj2 (ct_is_equal_spec _ _ eq_refl) eq_refl). }
  split; [now apply pss_encode_layout|].
  split; [exact Hcore|].
  unfold pss_verify. rewrite Hcore. split; reflexivity.
Qed.

(** C2 (verify never throws).  On every input [pss_verify] returns a
    boolean, and it returns [false], leaving [out_salt_size] alone,
    whenever one of the rejection conditions holds: [key_bits < 8*H + 9],
    a digest whose length is not [H], a representation longer than
    [ceil(key_bits/8)] or of at most one byte, a last byte other than
    0xBC, more top bits than the high byte of the padded representation
    leaves free, an unmasked data block with a byte that is neither 0x00
    nor 0x01 before the first 0x01, or one with no 0x01 at all. *)
Theorem pss_verify_never_throws (pss_repr message_hash : list byte) (key_bits : nat)
                                (out : option nat) :
  (exists ok out', pss_verify pss_repr message_hash key_bits out = Ok (ok, out')) /\
  (let key_bytes := ceil_tobytes key_bits in
   let coded := left_pad pss_repr key_bytes in
   let top_bits := 8 * key_bytes - key_bits in
   let DB := unmasked_DB coded top_bits in
   key_bits < 8 * output_length + 9 \/
   length message_hash <> output_length \/
   key_bytes < length pss_repr \/
   length pss_repr <= 1 \/
   nth (length pss_repr - 1) pss_repr x00 <> xbc \/
   8 - high_bit (nth 0 coded x00) < top_bits \/
   bad_padding DB \/
   ~ In x01 DB ->
   pss_verify pss_repr message_hash key_bits out = Ok (false, out)).
Proof.
  rewrite pss_verify_spec. split.
  - destruct (if structurally_rejected _ _ _ then _ else _) as [|[|] n]; eauto.
  - intros key_bytes coded top_bits DB Hrej.
    change top_bits with (top_bits_of key_bits) in *.
    destruct (structurally_rejected pss_repr message_hash key_bits) eqn:Hs;
      [reflexivity|].
    unfold structurally_rejected in Hs.
    repeat (apply orb_false_iff in Hs; destruct Hs as [Hs ?]).
    match goal with H : negb (Byte.eqb _ _) = false |- _ =>
      apply negb_false_iff, U8Facts.eqb_eq in H; rename H into Hlast end.
    match goal with H : (length pss_repr <=? 1) = false |- _ =>
      apply Nat.leb_gt in H; rename H into Hlen1 end.
    match goal with H : (ceil_tobytes key_bits <? _) = false |- _ =>
      apply Nat.ltb_ge in H; rename H into Hlen2 end.
    match goal with H : negb (_ =? _) = false |- _ =>
      apply negb_false_iff, Nat.eqb_eq in H; rename H into Hmh end.
    apply Nat.ltb_ge in Hs.
    destruct Hrej as [H|[H|[H|[H|[H|[H|[H|H]]]]]]]; try (exfalso; lia);
      try (exfalso; contradiction).
    + unfold checked_verdict. fold key_bytes coded.
      now rewrite (proj2 (Nat.ltb_lt _ _) H).
    + unfold checked_verdict. fold key_bytes coded.
      destruct (_ <? _); [reflexivity|].
      unfold verdict_of. fold DB.
      now rewrite (find_salt_offset_bad DB 0 H).
    + unfold checked_verdict. fold key_bytes coded.
      destruct (_ <? _); [reflexivity|].
      unfold verdict_of. fold DB.
      now destruct (find_salt_offset_no_marker DB 0 H) as [-> | ->].
Qed.

(** C3 (encode errors).  [pss_encode] throws [Encoding_Error] exactly
    when the digest length is not [H] or
    [output_bits < 8*H + 8*S + 9]; otherwise it returns an [EM] (a throw
    carries no output).  At the boundary, [8*H + 8*S + 8] bits fail and
    [8*H + 8*S + 9] bits succeed. *)
Theorem pss_encode_error_iff (d s : list byte) (N : nat) :
  (is_encoding_error (pss_encode d s N)
   <-> length d <> output_length \/ N < 8 * output_length + 8 * length s + 9) /\
  (is_encoding_error (pss_encode d s N) \/ exists EM, pss_encode d s N = Ok EM) /\
  (length d = output_length ->
   is_encoding_error (pss_encode d s (8 * output_length + 8 * length s + 8)) /\
   exists EM, pss_encode d s (8 * output_length + 8 * length s + 9) = Ok EM).
Proof.
  assert (Hbad : forall N', length d <> output_length \/
                            N' < 8 * output_length + 8 * length s + 9 ->
                            is_encoding_error (pss_encode d s N')).
  { intros N' Hor. unfold pss_encode, is_encoding_error.
    destruct (length d =? output_length) eqn:Hd; simpl negb; cbv iota; [|eauto].
    apply Nat.eqb_eq in Hd.
    destruct Hor as [Hne | Hlt]; [contradiction|].
    rewrite (proj2 (Nat.ltb_lt _ _) Hlt). eauto. }
  assert (Hgood : forall N', length d = output_length ->
                             8 * output_length + 8 * length s + 9 <= N' ->
                             pss_encode d s N' = Ok (EM_layout d s N'))
    by (intros; now apply pss_encode_layout).
  split; [split|split].
  - intros [what Hthrow].
    destruct (Nat.eq_dec (length d) output_length) as [Hd|Hd]; [|now left].
    destruct (Nat.lt_ge_cases N (8 * output_length + 8 * length s + 9)) as [Hlt|Hge];
      [now right|].
    rewrite Hgood in Hthrow by assumption. discriminate.
  - apply Hbad.
  - destruct (Nat.eq_dec (length d) output_length) as [Hd|Hd];
      [|left; apply Hbad; now left].
    destruct (Nat.lt_ge_cases N (8 * output_length + 8 * length s + 9)) as [Hlt|Hge];
      [left; apply Hbad; now right|].
    right. eauto.
  - intros Hd. split; [apply Hbad; right; lia|].
    exists (EM_layout d s (8 * output_length + 8 * length s + 9)).
    apply Hgood; [assumption | lia].
Qed.

(** C4 (layout).  For a digest [d] of length [H], a salt [s] and
    [N >= 8*H + 8*S + 9], [pss_encode d s N] returns an [EM] of exactly
    [emLen = ceil(N/8)] bytes; its last byte is 0xBC; the [H] bytes at
    positions [emLen-H-1 .. emLen-2] are
    [Hash(8 zero bytes || d || s)]; and the top [8*emLen - N] bits of
    its first byte are zero. *)
Theorem pss_encode_output_layout (d s : list byte) (N : nat) :
  length d = output_length ->
  8 * output_length + 8 * length s + 9 <= N ->
  exists EM,
    pss_encode d s N = Ok EM /\
    let emLen := ceil_tobytes N in
    length EM = emLen /\
    nth (emLen - 1) EM x00 = xbc /\
    firstn output_length (skipn (emLen - output_length - 1) EM)
      = digest (repeat x00 8 ++ d ++ s) /\
    forall i, 8 - (8 * emLen - N) <= i -> i < 8 ->
              U8.bit (nth 0 EM x00) i = false.
Proof.
  intros Hd HN. exists (EM_layout d s N).
  pose proof (ceil_tobytes_bounds N) as [Hlo Hhi].
  pose proof (EM_layout_length d s N HN) as HEM.
  pose proof (masked_DB_length d s N HN) as HM.
  pose proof (trailer_hash_length d s) as HH.
  split; [now apply pss_encode_layout|]. cbv zeta.
  split; [assumption|]. split; [|split].
  - rewrite <- HEM. unfold EM_layout.
    rewrite app_assoc, app_nth2; rewrite !length_app; simpl; [|lia].
    now replace (length (masked_DB d s N) + length (trailer_hash d s) + 1 - 1
                 - (length (masked_DB d s N) + length (trailer_hash d s)))
      with 0 by lia.
  - unfold EM_layout. rewrite <- HM.
    rewrite skipn_app, skipn_all, Nat.sub_diag. simpl.
    rewrite <- HH at 1.
    now rewrite firstn_app, firstn_all, Nat.sub_diag, app_nil_r.
  - intros i Hi1 Hi2. unfold EM_layout.
    rewrite app_nth1 by lia.
    unfold masked_DB in *.
    destruct (xor_buf _ _) as [|b l]; simpl in HM; [lia|].
    simpl. apply U8Facts.and_ff_shr_top_bits; lia.
Qed.

(** C5 (salt-length policy).  A padding object, [PSSR] or [PSS_Raw],
    that requires the salt length [S'] answers [false] whenever the salt
    length found by [pss_verify] is not [S'], also when the digest
    comparison succeeded (and it answers [false] on every rejection of
    [pss_verify]); in particular what [pss_encode] produced with a salt
    of a length other than [S'] is rejected. *)
Theorem salt_length_policy (p : PSSR) (r : PSS_Raw) (S' : nat) :
  pssr_required_salt_len p = true -> pssr_salt_size p = S' ->
  m_required_salt_len r = true -> m_salt_size r = S' ->
  (forall coded raw key_bits ok salt_size,
      pss_verify_core coded raw key_bits = Ok (Compared ok salt_size) ->
      salt_size <> S' ->
      PSSR_verify p coded raw key_bits = Ok false /\
      PSS_Raw_verify r coded raw key_bits = Ok false) /\
  (forall coded raw key_bits,
      pss_verify_core coded raw key_bits = Ok Rejected ->
      PSSR_verify p coded raw key_bits = Ok false /\
      PSS_Raw_verify r coded raw key_bits = Ok false) /\
  (forall d s N,
      length d = output_length ->
      8 * output_length + 8 * length s + 9 <= N ->
      length s <> S' ->
      exists EM,
        pss_encode d s N = Ok EM /\
        pss_verify_core EM d N = Ok (Compared true (length s)) /\
        PSSR_verify p EM d N = Ok false /\
        PSS_Raw_verify r EM d N = Ok false).
Proof.
  intros Hp HpS Hr HrS.
  assert (Hgen : forall coded raw key_bits ok salt_size,
             pss_verify_core coded raw key_bits = Ok (Compared ok salt_size) ->
             salt_size <> S' ->
             PSSR_verify p coded raw key_bits = Ok false /\
             PSS_Raw_verify r coded raw key_bits = Ok false).
  { intros coded raw key_bits ok salt_size Hcore Hne.
    unfold PSSR_verify, PSS_Raw_verify, pss_verify.
    rewrite Hcore, Hp, HpS, Hr, HrS. cbv beta iota delta [bind].
    destruct ok; cbv beta iota.
    - now rewrite (proj2 (Nat.eqb_neq _ _) Hne).
    - now destruct (0 =? S'). }
  split; [exact Hgen|]. split.
  - intros coded raw key_bits Hcore.
    unfold PSSR_verify, PSS_Raw_verify, pss_verify.
    rewrite Hcore, Hp, HpS, Hr, HrS. cbv beta iota delta [bind].
    now destruct (0 =? S').
  - intros d s N Hd HN Hne. exists (EM_layout d s N).
    assert (Hcore : pss_verify_core (EM_layout d s N) d N
                    = Ok (Compared true (length s))).
    { rewrite pss_verify_core_encoded by assumption.
      rewrite <- (trailer_hash_length d s) at 1.
      now rewrite (proj2 (ct_is_equal_spec _ _ eq_refl) eq_refl). }
    split; [now apply pss_encode_layout|]. split; [exact Hcore|].
    exact (Hgen _ _ _ _ _ Hcore Hne).
Qed.

(** C6 (left zero padding).  For a representation [EM] of more than one
    byte and fewer than [keyBytes = ceil(key_bits/8)] bytes that ends in
    0xBC, and a digest of length [H], [pss_verify] gives the same result
    on [EM] and on [EM] left-padded with zero bytes to [keyBytes]. *)
Theorem left_zero_padding_invariance (EM d : list byte) (key_bits : nat)
                                     (out : option nat) :
  1 < length EM ->
  length EM < ceil_tobytes key_bits ->
  nth (length EM - 1) EM x00 = xbc ->
  length d = output_length ->
  pss_verify EM d key_bits out
  = pss_verify (repeat x00 (ceil_tobytes key_bits - length EM) ++ EM) d key_bits out.
Proof.
  intros Hlen1 Hlen2 Hlast Hd.
  fold (left_pad EM (ceil_tobytes key_bits)).
  pose proof (left_pad_length EM (ceil_tobytes key_bits) (Nat.lt_le_incl _ _ Hlen2))
    as HP.
  rewrite !pss_verify_spec.
  rewrite (left_pad_full (left_pad EM (ceil_tobytes key_bits))) by lia.
  replace (structurally_rejected (left_pad EM (ceil_tobytes key_bits)) d key_bits)
    with (structurally_rejected EM d key_bits); [reflexivity|].
  unfold structurally_rejected. rewrite HP.
  replace (nth (ceil_tobytes key_bits - 1) (left_pad EM (ceil_tobytes key_bits)) x00)
    with (nth (length EM - 1) EM x00).
  - replace (ceil_tobytes key_bits <? length EM) with false
      by (symmetry; apply Nat.ltb_ge; lia).
    replace (ceil_tobytes key_bits <? ceil_tobytes key_bits) with false
      by (symmetry; apply Nat.ltb_ge; lia).
    replace (length EM <=? 1) with false by (symmetry; apply Nat.leb_gt; lia).
    replace (ceil_tobytes key_bits <=? 1) with false
      by (symmetry; apply Nat.leb_gt; lia).
    reflexivity.
  - unfold left_pad. rewrite app_nth2; rewrite repeat_length; [|lia].
    f_equal. lia.
Qed.

(** C7, as amended (digest mismatch).  Verifying what [pss_encode]
    produced for the digest [d] and the salt [s] against a digest [d'] of
    the same length never throws, and it returns [true] exactly when
    [Hash(8 zero bytes || d' || s) = Hash(8 zero bytes || d || s)]: a
    different digest is rejected unless the hash collides on the two
    inputs. *)
Theorem digest_mismatch_up_to_collision (d d' s EM : list byte) (N : nat)
                                        (out : option nat) :
  length d = output_length ->
  length d' = output_length ->
  pss_encode d s N = Ok EM ->
  exists ok out',
    pss_verify EM d' N out = Ok (ok, out') /\
    (ok = true <->
     digest (repeat x00 8 ++ d' ++ s) = digest (repeat x00 8 ++ d ++ s)).
Proof.
  intros Hd Hd' Henc.
  destruct (Nat.lt_ge_cases N (8 * output_length + 8 * length s + 9)) as [Hlt|HN].
  - exfalso. unfold pss_encode in Henc.
    rewrite (proj2 (Nat.eqb_eq _ _) Hd), (proj2 (Nat.ltb_lt _ _) Hlt) in Henc.
    discriminate.
  - rewrite pss_encode_layout in Henc by assumption. injection Henc as <-.
    unfold pss_verify. rewrite pss_verify_core_encoded by assumption.
    cbv beta iota delta [bind].
    pose proof (ct_is_equal_spec (trailer_hash d s) (trailer_hash d' s)) as Hct.
    rewrite !trailer_hash_length in Hct. specialize (Hct eq_refl).
    fold (trailer_hash d s) (trailer_hash d' s).
    destruct (ct_is_equal (trailer_hash d s) (trailer_hash d' s) output_length).
    + destruct out; eexists _, _; (split; [reflexivity|]);
        (split; [intros _; symmetry; now apply Hct | reflexivity]).
    + eexists _, _. split; [reflexivity|].
      split; [discriminate|]. intros E. symmetry in E. now apply Hct in E.
Qed.

(** C8, as amended (concrete vector).  For a hash with 4-byte digests,
    the digest 01 02 03 04, the salt AA BB CC DD and 80 output bits, the
    encoding has 10 bytes, [EM[9]] is 0xBC, [EM[5..9)] is the trailer hash
    [Hash(8 zero bytes || 01020304 || AABBCCDD)] in clear, and verifying
    [EM] against the digest 01 02 03 04 at 80 key bits returns [true]
    with salt length 4. *)
Theorem concrete_vector_layout :
  output_length = 4 ->
  exists EM,
    pss_encode Fixtures.digest_01020304 Fixtures.salt_aabbccdd 80 = Ok EM /\
    length EM = 10 /\
    nth 9 EM x00 = xbc /\
    firstn 4 (skipn 5 EM)
      = digest (repeat x00 8 ++ Fixtures.digest_01020304 ++ Fixtures.salt_aabbccdd) /\
    pss_verify EM Fixtures.digest_01020304 80 (Some 0) = Ok (true, Some 4).
Proof.
  intros H4.
  assert (Hd : length Fixtures.digest_01020304 = output_length) by now rewrite H4.
  assert (HN : 8 * output_length + 8 * length Fixtures.salt_aabbccdd + 9 <= 80)
    by (rewrite H4; simpl; lia).
  exists (EM_layout Fixtures.digest_01020304 Fixtures.salt_aabbccdd 80).
  pose proof (EM_layout_length Fixtures.digest_01020304 _ _ HN) as HEM.
  pose proof (masked_DB_length Fixtures.digest_01020304 _ _ HN) as HM.
  pose proof (trailer_hash_length Fixtures.digest_01020304 Fixtures.salt_aabbccdd) as HH.
  change (ceil_tobytes 80) with 10 in *. rewrite H4 in HM, HH. simpl in HM.
  split; [now apply pss_encode_layout|]. split; [assumption|].
  split; [|split].
  - unfold EM_layout. rewrite app_assoc, app_nth2; rewrite !length_app, HM, HH;
      [reflexivity | simpl; lia].
  - unfold EM_layout. rewrite <- HM at 1.
    rewrite skipn_app, skipn_all, Nat.sub_diag. simpl (skipn 0 _). simpl ([] ++ _).
    rewrite <- HH at 1.
    now rewrite firstn_app, firstn_all, Nat.sub_diag, app_nil_r.
  - unfold pss_verify. rewrite pss_verify_core_encoded by assumption.
    rewrite <- (trailer_hash_length Fixtures.digest_01020304 Fixtures.salt_aabbccdd)
      at 1.
    now rewrite (proj2 (ct_is_equal_spec _ _ eq_refl) eq_refl).
Qed.

(** C9 (out_salt_size).  [pss_verify] stores through [out_salt_size]
    only when the comparison succeeded: whenever it returns [false], the
    location is as it was before the call; when it returns [true] and
    the pointer is not null, the location holds the salt length found. *)
Theorem out_salt_size_written_only_on_success
        (pss_repr message_hash : list byte) (key_bits : nat) (out : option nat) :
  exists ok out',
    pss_verify pss_repr message_hash key_bits out = Ok (ok, out') /\
    (ok = false -> out' = out) /\
    (ok = true ->
     exists salt_size,
       pss_verify_core pss_repr message_hash key_bits = Ok (Compared true salt_size) /\
       out' = match out with Some _ => Some salt_size | None => None end).
Proof.
  unfold pss_verify. rewrite pss_verify_core_spec. cbv beta iota delta [bind].
  destruct (if structurally_rejected _ _ _ then _ else _) as [|[|] n].
  - eexists _, _. split; [reflexivity|]. split; [reflexivity | discriminate].
  - destruct out; eexists _, _; (split; [reflexivity|]);
      (split; [discriminate|]); intros _; eexists; split; reflexivity.
  - eexists _, _. split; [reflexivity|]. split; [reflexivity | discriminate].
Qed.

(** C10 (raw_data empties the buffer).  After [PSS_Raw::raw_data] the
    buffer [m_msg] is empty, whether the call returned the buffered
    bytes (their number was [H]) or threw [Encoding_Error] (it was not);
    an [update] after it leaves exactly its own input in the buffer. *)
Theorem raw_data_empties_buffer (this : PSS_Raw) :
  m_msg (snd (PSS_Raw_raw_data this)) = [] /\
  (length (m_msg this) = output_length ->
   fst (PSS_Raw_raw_data this) = Ok (m_msg this)) /\
  (length (m_msg this) <> output_length ->
   is_encoding_error (fst (PSS_Raw_raw_data this))) /\
  (forall input,
      m_msg (PSS_Raw_update (snd (PSS_Raw_raw_data this)) input) = input) /\
  m_salt_size (snd (PSS_Raw_raw_data this)) = m_salt_size this /\
  m_required_salt_len (snd (PSS_Raw_raw_data this)) = m_required_salt_len this.
Proof.
  unfold PSS_Raw_raw_data, is_encoding_error.
  destruct (length (m_msg this) =? output_length) eqn:E; simpl.
  - apply Nat.eqb_eq in E. repeat split; auto. intros Hne. contradiction.
  - apply Nat.eqb_neq in E. repeat split; auto.
    + intros He. contradiction.
    + intros _. eauto.
Qed.

End Claims.

(** * The claims on concrete inputs

    Adler-32 with MGF1 over it, the digest 01 02 03 04, the salt
    AA BB CC DD and 80 bits. *)

Import Fixtures.

Lemma pss_round_trip_witness :
  exists EM,
    @pss_encode Adler32 (MGF1 Adler32) digest_01020304 salt_aabbccdd 80 = Ok EM /\
    @pss_verify_core Adler32 (MGF1 Adler32) EM digest_01020304 80
      = Ok (Compared true (length salt_aabbccdd)) /\
    (forall v, @pss_verify Adler32 (MGF1 Adler32) EM digest_01020304 80 (Some v)
               = Ok (true, Some (length salt_aabbccdd))) /\
    @pss_verify Adler32 (MGF1 Adler32) EM digest_01020304 80 None = Ok (true, None).
Proof.
  apply (@pss_round_trip Adler32 (MGF1 Adler32) digest_01020304 salt_aabbccdd 80).
  - reflexivity.
  - simpl. lia.
Defined.

Lemma pss_verify_never_throws_witness :
  nth (length [xbc; x00] - 1) [xbc; x00] x00 <> xbc /\
  @pss_verify Adler32 (MGF1 Adler32) [xbc; x00] digest_01020304 80 (Some 7)
  = Ok (false, Some 7).
Proof.
  assert (Hlast : nth (length [xbc; x00] - 1) [xbc; x00] x00 <> xbc)
    by (simpl; discriminate).
  split; [exact Hlast|].
  apply (proj2 (@pss_verify_never_throws Adler32 (MGF1 Adler32)
                  [xbc; x00] digest_01020304 80 (Some 7))).
  do 4 right. left. exact Hlast.
Defined.

Lemma pss_encode_error_iff_witness :
  length digest_01020304 = @output_length Adler32 /\
  is_encoding_error (@pss_encode Adler32 (MGF1 Adler32) digest_01020304 salt_aabbccdd 72) /\
  exists EM, @pss_encode Adler32 (MGF1 Adler32) digest_01020304 salt_aabbccdd 73 = Ok EM.
Proof.
  split; [reflexivity|].
  apply (proj2 (proj2 (@pss_encode_error_iff Adler32 (MGF1 Adler32)
                         digest_01020304 salt_aabbccdd 80))).
  reflexivity.
Defined.

Lemma pss_encode_output_layout_witness :
  length digest_01020304 = @output_length Adler32 /\
  8 * @output_length Adler32 + 8 * length salt_aabbccdd + 9 <= 80 /\
  exists EM,
    @pss_encode Adler32 (MGF1 Adler32) digest_01020304 salt_aabbccdd 80 = Ok EM /\
    let emLen := ceil_tobytes 80 in
    length EM = emLen /\
    nth (emLen - 1) EM x00 = xbc /\
    firstn (@output_length Adler32) (skipn (emLen - @output_length Adler32 - 1) EM)
      = @digest Adler32 (repeat x00 8 ++ digest_01020304 ++ salt_aabbccdd) /\
    forall i, 8 - (8 * emLen - 80) <= i -> i < 8 -> U8.bit (nth 0 EM x00) i = false.
Proof.
  assert (Hd : length digest_01020304 = @output_length Adler32) by reflexivity.
  assert (HN : 8 * @output_length Adler32 + 8 * length salt_aabbccdd + 9 <= 80)
    by (simpl; lia).
  split; [exact Hd|]. split; [exact HN|].
  exact (@pss_encode_output_layout Adler32 (MGF1 Adler32)
           digest_01020304 salt_aabbccdd 80 Hd HN).
Defined.

Lemma salt_length_policy_witness :
  exists EM,
    @pss_encode Adler32 (MGF1 Adler32) digest_01020304 salt_aabbccdd 80 = Ok EM /\
    @pss_verify_core Adler32 (MGF1 Adler32) EM digest_01020304 80
      = Ok (Compared true (length salt_aabbccdd)) /\
    @PSSR_verify Adler32 (MGF1 Adler32) (PSSR_new_salt 3) EM digest_01020304 80
      = Ok false /\
    @PSS_Raw_verify Adler32 (MGF1 Adler32) (raw_required 3 []) EM digest_01020304 80
      = Ok false.
Proof.
  apply (proj2 (proj2 (@salt_length_policy Adler32 (MGF1 Adler32)
                         (PSSR_new_salt 3) (raw_required 3 []) 3
                         eq_refl eq_refl eq_refl eq_refl))).
  - reflexivity.
  - simpl. lia.
  - simpl. lia.
Defined.

Lemma left_zero_padding_invariance_witness :
  1 < length [x01; xbc] /\
  length [x01; xbc] < ceil_tobytes 80 /\
  nth (length [x01; xbc] - 1) [x01; xbc] x00 = xbc /\
  length digest_01020304 = @output_length Adler32 /\
  @pss_verify Adler32 (MGF1 Adler32) [x01; xbc] digest_01020304 80 (Some 0)
  = @pss_verify Adler32 (MGF1 Adler32)
      (repeat x00 (ceil_tobytes 80 - length [x01; xbc]) ++ [x01; xbc])
      digest_01020304 80 (Some 0).
Proof.
  assert (H1 : 1 < length [x01; xbc]) by (simpl; lia).
  assert (H2 : length [x01; xbc] < ceil_tobytes 80) by (vm_compute; lia).
  assert (H3 : nth (length [x01; xbc] - 1) [x01; xbc] x00 = xbc) by reflexivity.
  assert (H4 : length digest_01020304 = @output_length Adler32) by reflexivity.
  repeat (split; [assumption|]).
  exact (@left_zero_padding_invariance Adler32 (MGF1 Adler32)
           [x01; xbc] digest_01020304 80 (Some 0) H1 H2 H3 H4).
Defined.

(** C7, the claim as stated fails: Adler-32 gives 01 02 03 04 and
    00 04 02 04 the same trailer hash under the salt AA BB CC DD, and the
    encoding of the first verifies against the second. *)
Lemma digest_mismatch_counterexample :
  length digest_00040204 = length digest_01020304 /\
  digest_00040204 <> digest_01020304 /\
  @pss_encode Adler32 (MGF1 Adler32) digest_01020304 salt_aabbccdd 80 = Ok EM_80 /\
  @pss_verify Adler32 (MGF1 Adler32) EM_80 digest_00040204 80 (Some 0)
  = Ok (true, Some 4).
Proof.
  split; [reflexivity|]. split; [discriminate|]. split; vm_compute; reflexivity.
Qed.

Lemma digest_mismatch_up_to_collision_witness :
  length digest_01020304 = @output_length Adler32 /\
  length digest_00040204 = @output_length Adler32 /\
  @pss_encode Adler32 (MGF1 Adler32) digest_01020304 salt_aabbccdd 80 = Ok EM_80 /\
  exists ok out',
    @pss_verify Adler32 (MGF1 Adler32) EM_80 digest_00040204 80 (Some 0) = Ok (ok, out') /\
    (ok = true <->
     @digest Adler32 (repeat x00 8 ++ digest_00040204 ++ salt_aabbccdd)
     = @digest Adler32 (repeat x00 8 ++ digest_01020304 ++ salt_aabbccdd)).
Proof.
  assert (Hd : length digest_01020304 = @output_length Adler32) by reflexivity.
  assert (Hd' : length digest_00040204 = @output_length Adler32) by reflexivity.
  assert (Henc : @pss_encode Adler32 (MGF1 Adler32) digest_01020304 salt_aabbccdd 80
                 = Ok EM_80) by (vm_compute; reflexivity).
  repeat (split; [assumption|]).
  exact (@digest_mismatch_up_to_collision Adler32 (MGF1 Adler32)
           digest_01020304 digest_00040204 salt_aabbccdd EM_80 80 (Some 0) Hd Hd' Henc).
Defined.

(** C8, the claim as stated fails: the bytes [EM[4..8)] are the last byte
    of the masked data block and the first three bytes of the trailer
    hash, not the digest 01 02 03 04. *)
Lemma concrete_vector_counterexample :
  @pss_encode Adler32 (MGF1 Adler32) digest_01020304 salt_aabbccdd 80 = Ok EM_80 /\
  firstn 4 (skipn 4 EM_80) = [xd8; x07; x9a; x03] /\
  firstn 4 (skipn 4 EM_80) <> digest_01020304.
Proof.
  split; [vm_compute; reflexivity|]. split; [reflexivity | discriminate].
Qed.

Lemma concrete_vector_layout_witness :
  @output_length Adler32 = 4 /\
  exists EM,
    @pss_encode Adler32 (MGF1 Adler32) digest_01020304 salt_aabbccdd 80 = Ok EM /\
    length EM = 10 /\
    nth 9 EM x00 = xbc /\
    firstn 4 (skipn 5 EM)
      = @digest Adler32 (repeat x00 8 ++ digest_01020304 ++ salt_aabbccdd) /\
    @pss_verify Adler32 (MGF1 Adler32) EM digest_01020304 80 (Some 0) = Ok (true, Some 4).
Proof.
  split; [reflexivity|].
  apply (@concrete_vector_layout Adler32 (MGF1 Adler32)). reflexivity.
Defined.

Lemma out_salt_size_written_only_on_success_witness :
  exists ok out',
    @pss_verify Adler32 (MGF1 Adler32) [xbc; x00] digest_01020304 80 (Some 7)
      = Ok (ok, out') /\
    (ok = false -> out' = Some 7) /\
    (ok = true ->
     exists salt_size,
       @pss_verify_core Adler32 (MGF1 Adler32) [xbc; x00] digest_01020304 80
         = Ok (Compared true salt_size) /\
       out' = Some salt_size).
Proof.
  exact (@out_salt_size_written_only_on_success Adler32 (MGF1 Adler32)
           [xbc; x00] digest_01020304 80 (Some 7)).
Defined.

Lemma raw_data_empties_buffer_witness :
  length (m_msg (raw_required 4 [x01; x02; x03])) <> @output_length Adler32 /\
  m_msg (snd (@PSS_Raw_raw_data Adler32 (raw_required 4 [x01; x02; x03]))) = [] /\
  is_encoding_error (fst (@PSS_Raw_raw_data Adler32 (raw_required 4 [x01; x02; x03]))) /\
  m_msg (PSS_Raw_update (snd (@PSS_Raw_raw_data Adler32 (raw_required 4 [x01; x02; x03])))
                        digest_01020304) = digest_01020304.
Proof.
  assert (Hne : length (m_msg (raw_required 4 [x01; x02; x03])) <> @output_length Adler32)
    by (simpl; lia).
  destruct (@raw_data_empties_buffer Adler32 (raw_required 4 [x01; x02; x03]))
    as (Hempty & _ & Hthrow & Hupd & _).
  split; [exact Hne|]. split; [exact Hempty|]. split; [exact (Hthrow Hne)|].
  exact (Hupd digest_01020304).
Defined.

(** * Further properties of the PSS codec *)

Module U8More.
Import U8.

(** A byte that fits under the top-bit mask comes back from masking,
    clearing, unmasking and clearing again. *)
Lemma fitting_byte_roundtrip (p m : byte) (t : nat) :
  t < 8 -> high_bit p <= 8 - t ->
  and (xor (and (xor p m) (ff_shr t)) m) (ff_shr t) = p.
Proof.
  intros Ht Hp. apply Nat.leb_le in Hp.
  assert (H : implb (high_bit p <=? 8 - t)
                (Byte.eqb (and (xor (and (xor p m) (ff_shr t)) m) (ff_shr t)) p) = true);
    [|rewrite Hp in H; now apply U8Facts.eqb_eq].
  clear Hp. revert t Ht.
  apply (U8Facts.forall_below 8
           (fun t => implb (high_bit p <=? 8 - t)
                       (Byte.eqb (and (xor (and (xor p m) (ff_shr t)) m) (ff_shr t)) p))).
  revert p m.
  apply (U8Facts.forall_byte2
           (fun p m => forallb
              (fun t => implb (high_bit p <=? 8 - t)
                          (Byte.eqb (and (xor (and (xor p m) (ff_shr t)) m) (ff_shr t)) p))
              (seq 0 8))).
  vm_compute. reflexivity.
Qed.

End U8More.

Lemma split_last_byte (l : list byte) (k : nat) :
  length l = k + 1 -> l = firstn k l ++ [nth k l x00].
Proof.
  revert k; induction l as [|a l IH]; intros k Hlen; simpl in Hlen; [lia|].
  destruct k as [|k]; simpl.
  - destruct l; [reflexivity | simpl in Hlen; lia].
  - f_equal. apply IH. lia.
Qed.

Lemma left_pad_last (pss_repr : list byte) (key_bytes : nat) :
  0 < length pss_repr -> length pss_repr <= key_bytes ->
  nth (key_bytes - 1) (left_pad pss_repr key_bytes) x00
  = nth (length pss_repr - 1) pss_repr x00.
Proof.
  intros Hpos Hle. unfold left_pad.
  rewrite app_nth2; rewrite repeat_length; [|lia]. f_equal. lia.
Qed.

Section MoreCodecFacts.

Context {hash : HashFunction} {mgf : MaskGenerator}.

Lemma clear_top_xor_back (t : nat) (Dp mask : list byte) :
  t < 8 -> length mask = length Dp ->
  high_bit (hd x00 Dp) <= 8 - t ->
  clear_top t (xor_buf (clear_top t (xor_buf Dp mask)) mask) = Dp.
Proof.
  intros Ht Hlen Hhd.
  destruct Dp as [|p Dp], mask as [|m mask]; simpl in *; try discriminate; auto.
  rewrite U8More.fitting_byte_roundtrip by assumption.
  now rewrite xor_buf_cancel.
Qed.

Lemma structurally_rejected_false (pss_repr message_hash : list byte) (key_bits : nat) :
  structurally_rejected pss_repr message_hash key_bits = false <->
  8 * output_length + 9 <= key_bits /\
  length message_hash = output_length /\
  length pss_repr <= ceil_tobytes key_bits /\
  1 < length pss_repr /\
  nth (length pss_repr - 1) pss_repr x00 = xbc.
Proof.
  unfold structurally_rejected.
  rewrite !orb_false_iff, !negb_false_iff, Nat.ltb_ge, Nat.eqb_eq, Nat.ltb_ge,
    Nat.leb_gt, U8Facts.eqb_eq.
  tauto.
Qed.

(** What [pss_verify_core] accepts is an encoding. *)
Lemma pss_verify_core_accepted (pss_repr d : list byte) (key_bits S : nat) :
  pss_verify_core pss_repr d key_bits = Ok (Compared true S) ->
  1 < length pss_repr /\
  length pss_repr <= ceil_tobytes key_bits /\
  exists salt,
    length salt = S /\
    length d = output_length /\
    8 * output_length + 8 * length salt + 9 <= key_bits /\
    left_pad pss_repr (ceil_tobytes key_bits) = EM_layout d salt key_bits.
Proof.
  intros Hv. rewrite pss_verify_core_spec in Hv. injection Hv as Hv.
  destruct (structurally_rejected pss_repr d key_bits) eqn:Hs; [discriminate|].
  apply structurally_rejected_false in Hs.
  destruct Hs as (Hkey & Hd & Hlen2 & Hlen1 & Hlast).
  pose proof (ceil_tobytes_bounds key_bits) as [Hlo Hhi].
  pose proof (top_bits_of_lt_8 key_bits) as Ht.
  set (n := ceil_tobytes key_bits) in *.
  pose proof (left_pad_length pss_repr n Hlen2) as Hcoded.
  pose proof (left_pad_last pss_repr n ltac:(lia) Hlen2) as Hclast.
  rewrite Hlast in Hclast.
  set (coded := left_pad pss_repr n) in *.
  unfold checked_verdict in Hv.
  destruct (8 - high_bit (nth 0 coded x00) <? top_bits_of key_bits) eqn:Htop;
    [discriminate|].
  apply Nat.ltb_ge in Htop.
  unfold verdict_of in Hv.
  pose proof (unmasked_DB_length coded (top_bits_of key_bits)) as HDBlen.
  rewrite Hcoded in HDBlen.
  assert (HDBdef : unmasked_DB coded (top_bits_of key_bits)
                   = clear_top (top_bits_of key_bits)
                       (xor_buf (firstn (n - output_length - 1) coded)
                                (mgf1 (H_of coded (n - output_length - 1))
                                      (n - output_length - 1))))
    by (unfold unmasked_DB; now rewrite Hcoded).
  set (DB := unmasked_DB coded (top_bits_of key_bits)) in *.
  destruct (find_salt_offset DB 0) as [off|] eqn:Hscan; [|discriminate].
  destruct (off =? 0) eqn:Hoff; [discriminate|].
  apply Nat.eqb_neq in Hoff.
  destruct (find_salt_offset_found DB 0 off Hscan Hoff) as (Hpos & Hle & HDBshape).
  injection Hv as Hct HS.
  rewrite HDBlen in *.
  set (DBs := n - output_length - 1) in *.
  set (salt := skipn off DB) in *.
  assert (Hsalt : length salt = S)
    by (unfold salt; rewrite length_skipn; lia).
  assert (HHc : length (H_of coded DBs) = output_length)
    by (unfold H_of; rewrite length_firstn, length_skipn; lia).
  rewrite <- HHc in Hct at 1.
  apply ct_is_equal_spec in Hct;
    [|now rewrite HHc, digest_length].
  change (H_of coded DBs = trailer_hash d salt) in Hct.
  split; [assumption|]. split; [assumption|].
  exists salt. split; [assumption|]. split; [assumption|].
  split; [unfold DBs in *; lia|].
  unfold EM_layout, masked_DB. fold n. fold DBs.
  change (8 * n - key_bits) with (top_bits_of key_bits).
  rewrite <- Hct.
  assert (Hblock : data_block DBs salt = DB).
  { unfold data_block. rewrite Hsalt.
    replace (DBs - 1 - S) with (off - 0 - 1) by lia.
    rewrite HDBshape at 1. unfold salt.
    replace (off - 0) with off by lia. reflexivity. }
  rewrite Hblock, HDBdef.
  rewrite clear_top_xor_back.
  - rewrite <- (firstn_skipn DBs coded) at 1. f_equal.
    rewrite (split_last_byte (skipn DBs coded) output_length)
      by (rewrite length_skipn; lia).
    f_equal. f_equal.
    rewrite nth_skipn. rewrite <- Hclast. f_equal. lia.
  - assumption.
  - rewrite mgf1_length, length_firstn. lia.
  - replace (hd x00 (firstn DBs coded)) with (nth 0 coded x00);
      [pose proof (U8Facts.high_bit_le_8 (nth 0 coded x00)); lia|].
    destruct coded as [|c coded']; [simpl in Hcoded; lia|].
    destruct DBs eqn:E; [unfold DBs in E; lia | reflexivity].
Qed.

(** An encoding, also with leading zero bytes removed, is accepted. *)
Lemma pss_verify_core_accepts (pss_repr d salt : list byte) (key_bits : nat) :
  1 < length pss_repr ->
  length pss_repr <= ceil_tobytes key_bits ->
  length d = output_length ->
  8 * output_length + 8 * length salt + 9 <= key_bits ->
  left_pad pss_repr (ceil_tobytes key_bits) = EM_layout d salt key_bits ->
  pss_verify_core pss_repr d key_bits = Ok (Compared true (length salt)).
Proof.
  intros Hlen1 Hlen2 Hd Hbits Hpad.
  pose proof (ceil_tobytes_bounds key_bits) as [Hlo Hhi].
  pose proof (pss_verify_core_encoded d d salt key_bits Hd Hd Hbits) as Henc.
  rewrite <- (trailer_hash_length d salt) in Henc at 1.
  rewrite (proj2 (ct_is_equal_spec _ _ eq_refl) eq_refl) in Henc.
  rewrite pss_verify_core_spec in Henc. injection Henc as Henc.
  destruct (structurally_rejected (EM_layout d salt key_bits) d key_bits) eqn:Hs;
    [discriminate|].
  apply structurally_rejected_false in Hs.
  destruct Hs as (_ & _ & HEM2 & HEM1 & HEMlast).
  rewrite left_pad_full in Henc by (rewrite EM_layout_length; auto).
  rewrite pss_verify_core_spec.
  replace (structurally_rejected pss_repr d key_bits) with false.
  - now rewrite Hpad, Henc.
  - symmetry. apply structurally_rejected_false.
    repeat split; try lia; try assumption.
    rewrite <- (left_pad_last pss_repr (ceil_tobytes key_bits)) by lia.
    rewrite Hpad. rewrite EM_layout_length in HEMlast by assumption. exact HEMlast.
Qed.

End MoreCodecFacts.

Section MoreCodecTheorems.

Context {hash : HashFunction} {mgf : MaskGenerator} {RNG : RandomNumberGenerator}.

Lemma pss_encode_ok_inv (d s EM : list byte) (N : nat) :
  pss_encode d s N = Ok EM ->
  length d = output_length /\
  8 * output_length + 8 * length s + 9 <= N /\
  EM = EM_layout d s N.
Proof.
  intros Henc.
  destruct (Nat.eq_dec (length d) output_length) as [Hd|Hd].
  - destruct (Nat.lt_ge_cases N (8 * output_length + 8 * length s + 9)) as [Hlt|HN].
    + exfalso. unfold pss_encode in Henc.
      rewrite (proj2 (Nat.eqb_eq _ _) Hd), (proj2 (Nat.ltb_lt _ _) Hlt) in Henc.
      discriminate.
    + rewrite pss_encode_layout in Henc by assumption. injection Henc as <-. auto.
  - exfalso. unfold pss_encode in Henc.
    rewrite (proj2 (Nat.eqb_neq _ _) Hd) in Henc. discriminate.
Qed.

Lemma pss_verify_true_inv (pss_repr d : list byte) (key_bits v S : nat) :
  pss_verify pss_repr d key_bits (Some v) = Ok (true, Some S) <->
  pss_verify_core pss_repr d key_bits = Ok (Compared true S).
Proof.
  unfold pss_verify. rewrite pss_verify_core_spec. cbv beta iota delta [bind].
  destruct (if structurally_rejected _ _ _ then _ else _) as [|[|] n];
    split; intros E; try discriminate; injection E as ->; reflexivity.
Qed.

Lemma pss_verify_core_own_encoding (d s : list byte) (N : nat) :
  length d = output_length ->
  8 * output_length + 8 * length s + 9 <= N ->
  pss_verify_core (EM_layout d s N) d N = Ok (Compared true (length s)).
Proof.
  intros Hd Hbits.
  rewrite pss_verify_core_encoded by assumption.
  rewrite <- (trailer_hash_length d s) at 1.
  now rewrite (proj2 (ct_is_equal_spec _ _ eq_refl) eq_refl).
Qed.

(** X1 (what verify accepts).  [pss_verify] returns [true] with the salt
    length [S] exactly for the representations of more than one and at
    most [ceil(key_bits/8)] bytes which, left-padded with zero bytes, are
    the output of [pss_encode] for the same digest, the same bit count
    and some salt of length [S]: nothing but an encoding, possibly with
    leading zero bytes removed, is accepted. *)
Theorem pss_verify_accepts_exactly_encodings
        (pss_repr d : list byte) (key_bits v S : nat) :
  pss_verify pss_repr d key_bits (Some v) = Ok (true, Some S) <->
  1 < length pss_repr /\
  length pss_repr <= ceil_tobytes key_bits /\
  exists salt,
    length salt = S /\
    pss_encode d salt key_bits = Ok (left_pad pss_repr (ceil_tobytes key_bits)).
Proof.
  rewrite pss_verify_true_inv. split.
  - intros Hv.
    destruct (pss_verify_core_accepted pss_repr d key_bits S Hv)
      as (Hlen1 & Hlen2 & salt & HS & Hd & Hbits & Hpad).
    split; [assumption|]. split; [assumption|].
    exists salt. split; [assumption|].
    rewrite Hpad. now apply pss_encode_layout.
  - intros (Hlen1 & Hlen2 & salt & HS & Henc).
    destruct (pss_encode_ok_inv _ _ _ _ Henc) as (Hd & Hbits & Hpad).
    rewrite <- HS. now apply pss_verify_core_accepts.
Qed.


(** X3 (errors of encoding_of).  [PSSR::encoding_of] and
    [PSS_Raw::encoding_of] throw [Encoding_Error] exactly when the message
    is not of the hash's output length or [output_bits] is below
    [8*H + 8*m_salt_size + 9]; otherwise they return [ceil(output_bits/8)]
    bytes.  No other exception leaves them. *)
Theorem encoding_of_error_iff (p : PSSR) (r : PSS_Raw) (msg : list byte)
                              (output_bits : nat) (rng : rng_state) :
  (is_encoding_error (fst (PSSR_encoding_of p msg output_bits rng))
   <-> length msg <> output_length \/
       output_bits < 8 * output_length + 8 * pssr_salt_size p + 9) /\
  (is_encoding_error (fst (PSS_Raw_encoding_of r msg output_bits rng))
   <-> length msg <> output_length \/
       output_bits < 8 * output_length + 8 * m_salt_size r + 9) /\
  (is_encoding_error (fst (PSSR_encoding_of p msg output_bits rng)) \/
   exists EM, fst (PSSR_encoding_of p msg output_bits rng) = Ok EM /\
              length EM = ceil_tobytes output_bits) /\
  (is_encoding_error (fst (PSS_Raw_encoding_of r msg output_bits rng)) \/
   exists EM, fst (PSS_Raw_encoding_of r msg output_bits rng) = Ok EM /\
              length EM = ceil_tobytes output_bits).
Proof.
  assert (Hgen : forall salt_size,
             let res := pss_encode msg (fst (random_vec rng salt_size)) output_bits in
             (is_encoding_error res
              <-> length msg <> output_length \/
                  output_bits < 8 * output_length + 8 * salt_size + 9) /\
             (is_encoding_error res \/
              exists EM, res = Ok EM /\ length EM = ceil_tobytes output_bits)).
  { intros salt_size res. subst res.
    pose proof (random_vec_length rng salt_size) as Hlen.
    set (salt := fst (random_vec rng salt_size)) in *.
    assert (Hbad : length msg <> output_length \/
                   output_bits < 8 * output_length + 8 * salt_size + 9 ->
                   is_encoding_error (pss_encode msg salt output_bits)).
    { intros Hor. unfold pss_encode, is_encoding_error.
      destruct (length msg =? output_length) eqn:Hd; simpl negb; cbv iota; [|eauto].
      apply Nat.eqb_eq in Hd. destruct Hor as [Hne|Hlt]; [contradiction|].
      rewrite Hlen, (proj2 (Nat.ltb_lt _ _) Hlt). eauto. }
    destruct (Nat.eq_dec (length msg) output_length) as [Hd|Hd].
    - destruct (Nat.lt_ge_cases output_bits (8 * output_length + 8 * salt_size + 9))
        as [Hlt|Hge].
      + split; [split; auto|]. left. apply Hbad. now right.
      + assert (Hok : pss_encode msg salt output_bits
                      = Ok (EM_layout msg salt output_bits))
          by (apply pss_encode_layout; [assumption | rewrite Hlen; lia]).
        split.
        * split; [|intros [?|?]; [contradiction | lia]].
          intros [what E]. rewrite Hok in E. discriminate.
        * right. eexists. split; [exact Hok|].
          apply EM_layout_length. rewrite Hlen. lia.
    - split; [split; auto|]. left. apply Hbad. now left. }
  unfold PSSR_encoding_of, PSS_Raw_encoding_of. cbv zeta. simpl fst.
  destruct (Hgen (pssr_salt_size p)) as [H1 H2].
  destruct (Hgen (m_salt_size r)) as [H3 H4].
  repeat split; try apply H1; try apply H3; assumption.
Qed.


End MoreCodecTheorems.

Section MessageFlows.

Context {hash : HashFunction} {mgf : MaskGenerator} {RNG : RandomNumberGenerator}.

Lemma PSS_Raw_updates (chunks : list (list byte)) (r : PSS_Raw) :
  fold_left PSS_Raw_update chunks r
  = {| m_msg := m_msg r ++ concat chunks;
       m_salt_size := m_salt_size r;
       m_required_salt_len := m_required_salt_len r |}.
Proof.
  revert r; induction chunks as [|c chunks IH]; intros r; simpl.
  - rewrite app_nil_r. now destruct r.
  - rewrite IH. simpl. now rewrite <- app_assoc.
Qed.

Lemma PSSR_updates (chunks : list (list byte)) (h : Hash.state) :
  fold_left PSSR_update chunks h = h ++ concat chunks.
Proof.
  revert h; induction chunks as [|c chunks IH]; intros h; simpl.
  - now rewrite app_nil_r.
  - rewrite IH. unfold PSSR_update, Hash.update. now rewrite <- app_assoc.
Qed.

(** X5 (a message through PSS_Raw).  Fed in any number of [update]
    calls to an object with an empty buffer, a message that is not of the
    hash's output length makes [raw_data] throw [Encoding_Error]; a
    message of that length is returned by [raw_data] as it was fed, and
    its [encoding_of] is accepted by [verify] for the message as a
    verifier object of the same configuration received it, however the
    two sides split the message into [update] calls.  After [raw_data]
    the object is as it was before the first [update]. *)
Theorem PSS_Raw_message_flow (r : PSS_Raw) (chunks chunks' : list (list byte))
                             (output_bits : nat) (rng : rng_state) :
  m_msg r = [] ->
  concat chunks' = concat chunks ->
  (length (concat chunks) <> output_length ->
   is_encoding_error (fst (PSS_Raw_raw_data (fold_left PSS_Raw_update chunks r)))) /\
  (length (concat chunks) = output_length ->
   8 * output_length + 8 * m_salt_size r + 9 <= output_bits ->
   fst (PSS_Raw_raw_data (fold_left PSS_Raw_update chunks r)) = Ok (concat chunks) /\
   fst (PSS_Raw_raw_data (fold_left PSS_Raw_update chunks' r)) = Ok (concat chunks) /\
   exists EM,
     fst (PSS_Raw_encoding_of (snd (PSS_Raw_raw_data (fold_left PSS_Raw_update chunks r)))
                              (concat chunks) output_bits rng) = Ok EM /\
     PSS_Raw_verify (snd (PSS_Raw_raw_data (fold_left PSS_Raw_update chunks' r)))
                    EM (concat chunks) output_bits = Ok true) /\
  snd (PSS_Raw_raw_data (fold_left PSS_Raw_update chunks r)) = r.
Proof.
  intros Hempty Hsame.
  rewrite !PSS_Raw_updates, Hsame, Hempty. simpl app.
  assert (Hafter : forall b,
             snd (PSS_Raw_raw_data {| m_msg := b; m_salt_size := m_salt_size r;
                                      m_required_salt_len := m_required_salt_len r |}) = r).
  { intros b. unfold PSS_Raw_raw_data. simpl.
    destruct (length b =? output_length); simpl; destruct r; simpl in *; now subst. }
  rewrite !Hafter.
  split; [|split; [|reflexivity]].
  - intros Hne. unfold PSS_Raw_raw_data, is_encoding_error. simpl.
    rewrite (proj2 (Nat.eqb_neq _ _) Hne). simpl. eauto.
  - intros Hlen Hbits.
    assert (Hraw : fst (PSS_Raw_raw_data
                          {| m_msg := concat chunks; m_salt_size := m_salt_size r;
                             m_required_salt_len := m_required_salt_len r |})
                   = Ok (concat chunks)).
    { unfold PSS_Raw_raw_data. simpl. now rewrite (proj2 (Nat.eqb_eq _ _) Hlen). }
    split; [exact Hraw|]. split; [exact Hraw|].
    unfold PSS_Raw_encoding_of. cbv zeta. simpl fst.
    pose proof (random_vec_length rng (m_salt_size r)) as Hsalt.
    set (salt := fst (random_vec rng (m_salt_size r))) in *.
    assert (Hb : 8 * output_length + 8 * length salt + 9 <= output_bits)
      by (rewrite Hsalt; lia).
    exists (EM_layout (concat chunks) salt output_bits).
    split; [now apply pss_encode_layout|].
    unfold PSS_Raw_verify, pss_verify.
    rewrite (pss_verify_core_own_encoding (concat chunks) salt output_bits Hlen Hb).
    cbv beta iota delta [bind].
    rewrite Hsalt, Nat.eqb_refl. simpl negb. now rewrite andb_false_r.
Qed.

(** X6 (a message through PSSR).  Fed in any number of [update] calls to
    a reset hash, a message makes [raw_data] return the digest of the
    whole message and leave the hash reset; [encoding_of] of that digest
    succeeds for [output_bits >= 8*H + 8*m_salt_size + 9] and is accepted
    by [verify] for the digest a verifier computed from the same message,
    however the two sides split the message into [update] calls. *)
Theorem PSSR_message_flow (p : PSSR) (chunks chunks' : list (list byte))
                          (output_bits : nat) (rng : rng_state) :
  concat chunks' = concat chunks ->
  8 * output_length + 8 * pssr_salt_size p + 9 <= output_bits ->
  PSSR_raw_data (fold_left PSSR_update chunks Hash.clear)
  = (digest (concat chunks), Hash.clear) /\
  exists EM,
    fst (PSSR_encoding_of p (fst (PSSR_raw_data (fold_left PSSR_update chunks Hash.clear)))
                          output_bits rng) = Ok EM /\
    PSSR_verify p EM (fst (PSSR_raw_data (fold_left PSSR_update chunks' Hash.clear)))
                output_bits = Ok true.
Proof.
  intros Hsame Hbits.
  rewrite !PSSR_updates, Hsame. unfold PSSR_raw_data, Hash.final_stdvec, Hash.clear.
  simpl app. simpl fst.
  split; [reflexivity|].
  pose proof (digest_length (concat chunks)) as Hd.
  set (d := digest (concat chunks)) in *.
  unfold PSSR_encoding_of. cbv zeta. simpl fst.
  pose proof (random_vec_length rng (pssr_salt_size p)) as Hsalt.
  set (salt := fst (random_vec rng (pssr_salt_size p))) in *.
  assert (Hb : 8 * output_length + 8 * length salt + 9 <= output_bits)
    by (rewrite Hsalt; lia).
  exists (EM_layout d salt output_bits).
  split; [now apply pss_encode_layout|].
  unfold PSSR_verify, pss_verify.
  rewrite (pss_verify_core_own_encoding d salt output_bits Hd Hb).
  cbv beta iota delta [bind].
  rewrite Hsalt, Nat.eqb_refl. simpl negb. now rewrite andb_false_r.
Qed.

End MessageFlows.

(** * Properties of Buffered_Filter *)

Module BufferedFilterFacts.
Import BufferedFilter.

(** ** Arithmetic of the block sizes *)

Lemma round_down_spec (b x : nat) :
  0 < b -> exists q, x - x mod b = b * q /\ b * q <= x /\ x < b * q + b.
Proof.
  intros Hb. exists (x / b).
  pose proof (Nat.div_mod_eq x b) as E.
  pose proof (Nat.mod_upper_bound x b ltac:(lia)) as B.
  lia.
Qed.

Lemma full_blocks_spec (b x : nat) :
  0 < b -> exists q, x / b * b = b * q /\ b * q <= x /\ x < b * q + b.
Proof.
  intros Hb. exists (x / b).
  pose proof (Nat.div_mod_eq x b) as E.
  pose proof (Nat.mod_upper_bound x b ltac:(lia)) as B.
  lia.
Qed.

Lemma multiple_mod (b q : nat) : (b * q) mod b = 0.
Proof. rewrite Nat.mul_comm. apply Nat.Div0.mod_mul. Qed.

(** The sizes computed by [write] when the buffer is filled and flushed
    (lines 40-57) and then blocks are taken from the input (lines 59-69). *)
Lemma write_sizes_flush (b f pos L : nat) :
  0 < b -> f <= b -> pos < b + f -> b + f <= pos + L ->
  let to_copy := Nat.min (2 * b - pos) L in
  let pos1 := pos + to_copy in
  let L1 := L - to_copy in
  let available := Nat.min pos1 (pos1 + L1 - f) in
  let total := available - available mod b in
  let pos2 := pos1 - total in
  let direct := direct_bytes b f L1 in
  to_copy <= L /\ pos1 <= 2 * b /\
  0 < total /\ total <= pos1 /\ total mod b = 0 /\
  direct <= L1 /\ direct mod b = 0 /\ (0 < direct -> pos2 = 0) /\
  f <= pos2 + (L1 - direct) /\ pos2 + (L1 - direct) < b + f.
Proof.
  intros Hb Hf Hpos Hfill. cbv zeta.
  destruct (Nat.le_gt_cases L (2 * b - pos)) as [Hfits|Hmore].
  - (* everything fits into the buffer *)
    rewrite (Nat.min_r _ _ Hfits).
    replace (L - L) with 0 by lia.
    replace (Nat.min (pos + L) (pos + L + 0 - f)) with (pos + L - f) by lia.
    destruct (round_down_spec b (pos + L - f) Hb) as (q & -> & Hq1 & Hq2).
    assert (Hdirect : direct_bytes b f 0 = 0).
    { unfold direct_bytes. destruct (f <=? 0) eqn:E; [|reflexivity].
      apply Nat.leb_le in E. replace (0 - f) with 0 by lia.
      now rewrite Nat.Div0.div_0_l. }
    rewrite Hdirect, multiple_mod.
    assert (1 <= q) by nia.
    repeat split; try lia; try nia.
    apply Nat.Div0.mod_0_l.
  - (* the buffer is filled up, input is left *)
    replace (Nat.min (2 * b - pos) L) with (2 * b - pos) by lia.
    replace (pos + (2 * b - pos)) with (2 * b) by lia.
    set (L1 := L - (2 * b - pos)).
    assert (HL1 : 0 < L1) by (unfold L1; lia).
    destruct (Nat.le_gt_cases f L1) as [Hge|Hlt].
    + replace (Nat.min (2 * b) (2 * b + L1 - f)) with (b * 2) by lia.
      rewrite multiple_mod.
      unfold direct_bytes. rewrite (proj2 (Nat.leb_le _ _) Hge).
      destruct (full_blocks_spec b (L1 - f) Hb) as (q & -> & Hq1 & Hq2).
      rewrite multiple_mod.
      repeat split; try lia; try nia.
      rewrite Nat.sub_0_r. apply multiple_mod.
    + replace (Nat.min (2 * b) (2 * b + L1 - f)) with (2 * b + L1 - f) by lia.
      destruct (round_down_spec b (2 * b + L1 - f) Hb) as (q & -> & Hq1 & Hq2).
      assert (q = 1) by nia. subst q.
      unfold direct_bytes. rewrite (proj2 (Nat.leb_gt _ _) Hlt).
      rewrite multiple_mod.
      repeat split; try lia.
      apply Nat.Div0.mod_0_l.
Qed.

(** Below [b + f] pending bytes nothing is taken from the input. *)
Lemma write_sizes_keep (b f pos L : nat) :
  0 < b -> pos + L < b + f -> direct_bytes b f L = 0.
Proof.
  intros Hb Hkeep. unfold direct_bytes.
  destruct (f <=? L) eqn:E; [|reflexivity].
  apply Nat.leb_le in E. rewrite Nat.div_small by lia. reflexivity.
Qed.

(** ** Buffers *)

Lemma span_ok (v : list byte) (off n : nat) :
  off + n <= length v -> span v off n = Done (firstn n (skipn off v)).
Proof.
  intros Hle. unfold span. now rewrite (proj2 (Nat.leb_le _ _) Hle).
Qed.

Lemma copy_mem_ok (buffer : list byte) (off : nat) (input : list byte) :
  off + length input <= length buffer ->
  copy_mem buffer off input = Done (write_at buffer off input).
Proof.
  intros Hle. unfold copy_mem. now rewrite (proj2 (Nat.leb_le _ _) Hle).
Qed.

Lemma write_at_length (buffer : list byte) (off : nat) (bs : list byte) :
  off + length bs <= length buffer -> length (write_at buffer off bs) = length buffer.
Proof.
  intros Hle. unfold write_at. rewrite !length_app, length_firstn, length_skipn. lia.
Qed.

Lemma firstn_write_at (buffer : list byte) (off : nat) (bs : list byte) :
  off + length bs <= length buffer ->
  firstn (off + length bs) (write_at buffer off bs) = firstn off buffer ++ bs.
Proof.
  intros Hle. unfold write_at. rewrite app_assoc.
  rewrite firstn_app, length_app, length_firstn.
  replace (off + length bs - (Nat.min off (length buffer) + length bs)) with 0 by lia.
  simpl (firstn 0 _). rewrite app_nil_r.
  apply firstn_all2. rewrite length_app, length_firstn. lia.
Qed.

Lemma firstn_add (l : list byte) (m n : nat) :
  firstn (m + n) l = firstn m l ++ firstn n (skipn m l).
Proof.
  revert l; induction m as [|m IH]; intros l; simpl; [reflexivity|].
  destruct l as [|a l]; simpl.
  - now rewrite firstn_nil.
  - now rewrite IH.
Qed.

Lemma data_of_app (c1 c2 : list call) : data_of (c1 ++ c2) = data_of c1 ++ data_of c2.
Proof. unfold data_of. now rewrite map_app, concat_app. Qed.

(** ** The second part of write (lines 59-69) *)

Lemma second_part {A : Type} (b f : nat) (input : list byte) (input_size : nat)
      (calls : list call) (k : list byte * nat * list call -> outcome A) :
  length input = input_size ->
  and_then
    (if f <=? input_size then
       if 0 <? (input_size - f) / b * b then
         and_then (span input 0 ((input_size - f) / b * b))
           (fun block => Done (skipn ((input_size - f) / b * b) input,
                               input_size - (input_size - f) / b * b,
                               calls ++ [buffered_block block]))
       else Done (input, input_size, calls)
     else Done (input, input_size, calls)) k
  = k (skipn (direct_bytes b f input_size) input,
       input_size - direct_bytes b f input_size,
       calls ++ (if 0 <? direct_bytes b f input_size
                 then [buffered_block (firstn (direct_bytes b f input_size) input)]
                 else [])).
Proof.
  intros Hlen. unfold direct_bytes.
  destruct (f <=? input_size) eqn:Hf.
  - apply Nat.leb_le in Hf.
    destruct (0 <? (input_size - f) / b * b) eqn:Hpos.
    + assert (Hle : (input_size - f) / b * b <= input_size).
      { destruct (Nat.eq_dec b 0) as [->|Hb]; [lia|].
        destruct (full_blocks_spec b (input_size - f) ltac:(lia)) as (q & -> & Hq & _).
        lia. }
      rewrite span_ok by (simpl; lia). reflexivity.
    + apply Nat.ltb_ge in Hpos.
      replace ((input_size - f) / b * b) with 0 by lia.
      simpl. now rewrite Nat.sub_0_r, app_nil_r.
  - simpl. now rewrite Nat.sub_0_r, app_nil_r.
Qed.

(** ** write *)

Lemma and_then_Done {A B : Type} (a : A) (k : A -> outcome B) :
  and_then (Done a) k = k a.
Proof. reflexivity. Qed.

Lemma write_spec (this : t) (input : list byte) :
  wf this ->
  exists this' calls,
    write this input = Done (this', calls) /\
    wf this' /\
    m_main_block_mod this' = m_main_block_mod this /\
    m_final_minimum this' = m_final_minimum this /\
    data_of calls ++ buffered this' = buffered this ++ input /\
    Forall (whole_blocks (m_main_block_mod this)) calls /\
    (m_buffer_pos this + length input < m_main_block_mod this + m_final_minimum this ->
     calls = []) /\
    (m_main_block_mod this + m_final_minimum this <= m_buffer_pos this + length input ->
     calls <> [] /\ m_final_minimum this <= m_buffer_pos this').
Proof.
  intros (Hb & Hf & Hbuf & Hpos).
  destruct this as [b f buffer pos].
  cbn [m_main_block_mod m_final_minimum m_buffer m_buffer_pos] in *.
  unfold write. cbn [m_main_block_mod m_final_minimum m_buffer m_buffer_pos].
  destruct (length input =? 0) eqn:Hempty.
  - apply Nat.eqb_eq in Hempty. apply length_zero_iff_nil in Hempty. subst input.
    exists {| m_main_block_mod := b; m_final_minimum := f;
              m_buffer := buffer; m_buffer_pos := pos |}, [].
    unfold wf, buffered. cbn [m_main_block_mod m_final_minimum m_buffer m_buffer_pos].
    rewrite app_nil_r. simpl length.
    repeat split; auto; try lia.
  - apply Nat.eqb_neq in Hempty.
    cbv zeta.
    set (L := length input) in *.
    destruct (b + f <=? pos + L) eqn:Hfill.
    + (* the buffer is filled and flushed *)
      apply Nat.leb_le in Hfill.
      pose proof (write_sizes_flush b f pos L Hb Hf Hpos Hfill) as Hs.
      cbv zeta in Hs. cbv zeta. rewrite Hbuf.
      set (to_copy := Nat.min (2 * b - pos) L) in *.
      set (pos1 := pos + to_copy) in *.
      set (L1 := L - to_copy) in *.
      set (available := Nat.min pos1 (pos1 + L1 - f)) in *.
      set (total := available - available mod b) in *.
      set (pos2 := pos1 - total) in *.
      set (direct := direct_bytes b f L1) in *.
      destruct Hs as (Hs1 & Hs2 & Hs3 & Hs4 & Hs5 & Hs6 & Hs7 & Hs8 & Hs9 & Hs10).
      cbv zeta.
      rewrite span_ok by (simpl; fold L; lia). simpl (skipn 0 input).
      assert (Hchunk : length (firstn to_copy input) = to_copy)
        by (rewrite length_firstn; fold L; lia).
      repeat (rewrite and_then_Done; cbv beta iota).
      rewrite copy_mem_ok by (rewrite Hchunk, Hbuf; unfold pos1 in Hs2; lia).
      repeat (rewrite and_then_Done; cbv beta iota).
      set (buffer1 := write_at buffer pos (firstn to_copy input)).
      assert (Hbuf1 : length buffer1 = 2 * b)
        by (unfold buffer1; rewrite write_at_length;
            [assumption | rewrite Hchunk, Hbuf; unfold pos1 in Hs2; lia]).
      assert (Hcontent1 : firstn pos1 buffer1 = firstn pos buffer ++ firstn to_copy input).
      { unfold pos1, buffer1. rewrite <- Hchunk at 1.
        apply firstn_write_at. rewrite Hchunk, Hbuf. unfold pos1 in Hs2. lia. }
      rewrite span_ok by (simpl; lia). simpl (skipn 0 buffer1).
      repeat (rewrite and_then_Done; cbv beta iota).
      rewrite span_ok by (unfold pos2; lia).
      repeat (rewrite and_then_Done; cbv beta iota).
      set (rest := firstn pos2 (skipn total buffer1)).
      assert (Hrest : length rest = pos2)
        by (unfold rest; rewrite length_firstn, length_skipn; unfold pos2; lia).
      rewrite copy_mem_ok by (rewrite Hrest, Hbuf1; unfold pos2; lia).
      repeat (rewrite and_then_Done; cbv beta iota).
      set (buffer2 := write_at buffer1 0 rest).
      assert (Hbuf2 : length buffer2 = 2 * b)
        by (unfold buffer2; rewrite write_at_length;
            [assumption | rewrite Hrest, Hbuf1; unfold pos2; lia]).
      assert (Hcontent2 : firstn pos2 buffer2 = rest).
      { unfold buffer2. rewrite <- Hrest at 1.
        change (length rest) with (0 + length rest).
        rewrite firstn_write_at by (rewrite Hrest, Hbuf1; unfold pos2; lia).
        reflexivity. }
      assert (Hsplit : firstn total buffer1 ++ rest = firstn pos buffer ++ firstn to_copy input).
      { rewrite <- Hcontent1. unfold rest.
        replace pos1 with (total + pos2) by (unfold pos2; lia).
        symmetry. apply firstn_add. }
      assert (Hin1 : length (skipn to_copy input) = L1)
        by (rewrite length_skipn; reflexivity).
      rewrite (second_part b f (skipn to_copy input) L1 _ _ Hin1).
      fold direct.
      set (input2 := skipn direct (skipn to_copy input)).
      assert (Hin2 : length input2 = L1 - direct)
        by (unfold input2; rewrite length_skipn, Hin1; reflexivity).
      rewrite span_ok by (simpl; lia). simpl (skipn 0 input2).
      replace (firstn (L1 - direct) input2) with input2
        by (rewrite <- Hin2; symmetry; apply firstn_all).
      repeat (rewrite and_then_Done; cbv beta iota).
      rewrite copy_mem_ok by (rewrite Hin2, Hbuf2; lia).
      repeat (rewrite and_then_Done; cbv beta iota).
      eexists _, _. split; [reflexivity|].
      unfold wf, buffered. cbn [m_main_block_mod m_final_minimum m_buffer m_buffer_pos].
      rewrite write_at_length by (rewrite Hin2, Hbuf2; lia).
      split; [repeat split; try assumption; lia|].
      split; [reflexivity|]. split; [reflexivity|].
      split; [|split; [|split]].
      * (* the stream *)
        rewrite <- Hin2, firstn_write_at by (rewrite Hin2, Hbuf2; lia).
        rewrite Hcontent2, data_of_app.
        transitivity ((firstn pos buffer ++ firstn to_copy input) ++ skipn to_copy input);
          [|now rewrite <- app_assoc, firstn_skipn].
        rewrite <- Hsplit.
        destruct (0 <? direct) eqn:Hd.
        -- apply Nat.ltb_lt in Hd. specialize (Hs8 Hd).
           assert (Hnil : rest = []) by (apply length_zero_iff_nil; lia).
           rewrite Hnil. unfold data_of. simpl. rewrite !app_nil_r.
           unfold input2. rewrite <- app_assoc. f_equal.
           apply firstn_skipn.
        -- apply Nat.ltb_ge in Hd.
           unfold input2. replace direct with 0 by lia.
           unfold data_of. simpl. rewrite !app_nil_r. now rewrite <- app_assoc.
      * (* whole blocks *)
        apply Forall_app. split.
        -- constructor; [|constructor].
           exists (firstn total buffer1). split; [reflexivity|].
           rewrite length_firstn, Hbuf1.
           replace (Nat.min total (2 * b)) with total by lia. split; assumption.
        -- destruct (0 <? direct) eqn:Hd; [|constructor].
           apply Nat.ltb_lt in Hd. constructor; [|constructor].
           exists (firstn direct (skipn to_copy input)). split; [reflexivity|].
           rewrite length_firstn, Hin1.
           replace (Nat.min direct L1) with direct by lia. split; assumption.
      * intros Hlt. lia.
      * intros _. split; [|lia].
        intros E. apply app_eq_nil in E. destruct E as [E _]. discriminate.
    + (* everything is kept *)
      apply Nat.leb_gt in Hfill.
      repeat (rewrite and_then_Done; cbv beta iota).
      rewrite (second_part b f input L _ _ eq_refl).
      rewrite (write_sizes_keep b f pos L Hb Hfill).
      change (0 <? 0) with false. cbv iota. simpl (skipn 0 input). rewrite Nat.sub_0_r.
      rewrite span_ok by (simpl; fold L; lia). simpl (skipn 0 input).
      unfold L at 1. rewrite firstn_all.
      repeat (rewrite and_then_Done; cbv beta iota).
      rewrite copy_mem_ok by (fold L; lia).
      repeat (rewrite and_then_Done; cbv beta iota).
      eexists _, _. split; [reflexivity|].
      unfold wf, buffered. cbn [m_main_block_mod m_final_minimum m_buffer m_buffer_pos].
      rewrite write_at_length by (fold L; lia).
      split; [repeat split; try assumption; lia|].
      split; [reflexivity|]. split; [reflexivity|].
      split; [|split; [|split]].
      * unfold L. rewrite firstn_write_at by (fold L; lia). reflexivity.
      * constructor.
      * reflexivity.
      * intros Hge. lia.
Qed.

Lemma buffered_length (this : t) :
  wf this -> length (buffered this) = m_buffer_pos this.
Proof.
  intros (Hb & Hf & Hbuf & Hpos). unfold buffered. rewrite length_firstn. lia.
Qed.

(** Below the final minimum [write] only stores; from [b + f] pending
    bytes on it hands blocks on and keeps at least [f] bytes. *)
Lemma write_position (this this' : t) (input : list byte) (calls : list call) :
  wf this -> write this input = Done (this', calls) ->
  (m_final_minimum this <= m_buffer_pos this + length input ->
   m_final_minimum this <= m_buffer_pos this') /\
  (m_buffer_pos this + length input < m_main_block_mod this + m_final_minimum this ->
   m_buffer_pos this' = m_buffer_pos this + length input).
Proof.
  intros Hwf Hw.
  destruct (write_spec this input Hwf)
    as (this'' & calls'' & Hw' & Hwf' & _ & _ & Hdata & _ & Hkeep & Hflush).
  rewrite Hw in Hw'. injection Hw' as <- <-.
  pose proof (buffered_length this Hwf) as Hl. pose proof (buffered_length this' Hwf') as Hl'.
  assert (Hsmall : m_buffer_pos this + length input
                   < m_main_block_mod this + m_final_minimum this ->
                   m_buffer_pos this' = m_buffer_pos this + length input).
  { intros Hlt. rewrite (Hkeep Hlt) in Hdata. unfold data_of in Hdata. simpl in Hdata.
    apply (f_equal (@length byte)) in Hdata. rewrite length_app in Hdata. lia. }
  split; [|exact Hsmall].
  intros Hge.
  destruct (Nat.lt_ge_cases (m_buffer_pos this + length input)
                            (m_main_block_mod this + m_final_minimum this)) as [Hlt|Hfull].
  - rewrite (Hsmall Hlt). lia.
  - apply (Hflush Hfull).
Qed.

(** ** end_msg *)

Lemma end_msg_spec (this : t) :
  wf this ->
  (m_buffer_pos this < m_final_minimum this ->
   end_msg this
   = Raise (Invalid_State "Buffered filter end_msg without enough input"%string)) /\
  (m_final_minimum this <= m_buffer_pos this ->
   end_msg this
   = Done ({| m_main_block_mod := m_main_block_mod this;
              m_final_minimum := m_final_minimum this;
              m_buffer := m_buffer this;
              m_buffer_pos := 0 |},
           [buffered_final (buffered this)])).
Proof.
  intros (Hb & Hf & Hbuf & Hpos). unfold end_msg. cbv zeta. split.
  - intros Hlt. now rewrite (proj2 (Nat.ltb_lt _ _) Hlt).
  - intros Hge. rewrite (proj2 (Nat.ltb_ge _ _) Hge).
    rewrite (Nat.div_small (m_buffer_pos this - m_final_minimum this)) by lia.
    change (0 <? 0) with false. cbv iota.
    rewrite span_ok by (simpl; lia). reflexivity.
Qed.

(** ** A sequence of writes *)

Lemma write_all_spec (pieces : list (list byte)) (this : t) :
  wf this ->
  exists this' calls,
    write_all this pieces = Done (this', calls) /\
    wf this' /\
    m_main_block_mod this' = m_main_block_mod this /\
    m_final_minimum this' = m_final_minimum this /\
    data_of calls ++ buffered this' = buffered this ++ concat pieces /\
    Forall (whole_blocks (m_main_block_mod this)) calls /\
    (m_final_minimum this <= m_buffer_pos this + length (concat pieces) ->
     m_final_minimum this <= m_buffer_pos this').
Proof.
  revert this; induction pieces as [|piece pieces IH]; intros this Hwf.
  - exists this, []. simpl. rewrite app_nil_r.
    repeat split; auto; try apply Hwf. lia.
  - destruct (write_spec this piece Hwf)
      as (this1 & calls1 & Hw & Hwf1 & Hb1 & Hf1 & Hdata1 & Hblocks1 & _).
    destruct (write_position this this1 piece calls1 Hwf Hw) as [Hpos1 Hsmall1].
    destruct (IH this1 Hwf1)
      as (this2 & calls2 & Hw2 & Hwf2 & Hb2 & Hf2 & Hdata2 & Hblocks2 & Hpos2).
    exists this2, (calls1 ++ calls2).
    simpl write_all. rewrite Hw. rewrite and_then_Done. cbv beta iota.
    rewrite Hw2. rewrite and_then_Done. cbv beta iota.
    split; [reflexivity|]. split; [assumption|].
    split; [congruence|]. split; [congruence|].
    split; [|split].
    + rewrite data_of_app, <- app_assoc, Hdata2, app_assoc, Hdata1.
      simpl concat. now rewrite <- app_assoc.
    + apply Forall_app. split; [assumption|]. now rewrite <- Hb1.
    + intros Hge. rewrite Hf1 in Hpos2. apply Hpos2.
      simpl concat in Hge. rewrite length_app in Hge.
      destruct (Nat.lt_ge_cases (m_buffer_pos this + length piece)
                                (m_main_block_mod this + m_final_minimum this))
        as [Hlt|Hfull].
      * rewrite (Hsmall1 Hlt). lia.
      * assert (m_final_minimum this <= m_buffer_pos this1) by (apply Hpos1; lia). lia.
Qed.

(** ** The properties *)


(** X8 (write is safe).  On a filter that satisfies the invariant,
    [write] returns for every input: no copy and no block handed on
    reaches outside the buffer or the input.  The filter it leaves
    satisfies the invariant again, with the same block size and final
    minimum; in particular fewer than [b + f] bytes are held back. *)
Theorem write_keeps_invariant (this : t) (input : list byte) :
  wf this ->
  exists this' calls,
    write this input = Done (this', calls) /\
    wf this' /\
    m_main_block_mod this' = m_main_block_mod this /\
    m_final_minimum this' = m_final_minimum this /\
    m_buffer_pos this' < m_main_block_mod this + m_final_minimum this.
Proof.
  intros Hwf.
  destruct (write_spec this input Hwf) as (this' & calls & Hw & Hwf' & Hb & Hf & _).
  exists this', calls. repeat split; try assumption; try apply Hwf'.
  destruct Hwf' as (_ & _ & _ & Hpos). now rewrite Hb, Hf in Hpos.
Qed.

(** X9 (write loses nothing).  The bytes handed on by a [write],
    followed by the bytes held back after it, are the bytes held back
    before it followed by the input, in this order.  Every call it makes
    is a [buffered_block] with a positive multiple of the block size;
    [write] never calls [buffered_final]. *)
Theorem write_preserves_stream (this this' : t) (input : list byte) (calls : list call) :
  wf this ->
  write this input = Done (this', calls) ->
  data_of calls ++ buffered this' = buffered this ++ input /\
  Forall (whole_blocks (m_main_block_mod this)) calls.
Proof.
  intros Hwf Hw.
  destruct (write_spec this input Hwf)
    as (this'' & calls'' & Hw' & _ & _ & _ & Hdata & Hblocks & _).
  rewrite Hw in Hw'. injection Hw' as <- <-. now split.
Qed.

(** X10 (when write hands blocks on).  As long as the bytes held back
    and the input together are fewer than [b + f], [write] makes no call
    and appends the input to what is held back.  From [b + f] bytes on
    it makes at least one call and keeps at least [f] and fewer than
    [b + f] bytes. *)
Theorem write_threshold (this this' : t) (input : list byte) (calls : list call) :
  wf this ->
  write this input = Done (this', calls) ->
  (m_buffer_pos this + length input < m_main_block_mod this + m_final_minimum this ->
   calls = [] /\ buffered this' = buffered this ++ input) /\
  (m_main_block_mod this + m_final_minimum this <= m_buffer_pos this + length input ->
   calls <> [] /\
   m_final_minimum this <= m_buffer_pos this' /\
   m_buffer_pos this' < m_main_block_mod this + m_final_minimum this).
Proof.
  intros Hwf Hw.
  destruct (write_spec this input Hwf)
    as (this'' & calls'' & Hw' & Hwf' & Hb & Hf & Hdata & _ & Hkeep & Hflush).
  rewrite Hw in Hw'. injection Hw' as <- <-. split.
  - intros Hlt. specialize (Hkeep Hlt). subst calls. now split.
  - intros Hge. destruct (Hflush Hge) as [Hne Hpos].
    destruct Hwf' as (_ & _ & _ & Hpos'). rewrite Hb, Hf in Hpos'. auto.
Qed.

(** X11 (end_msg).  On a filter that satisfies the invariant, [end_msg]
    throws [Invalid_State] exactly when fewer than [f] bytes are held
    back.  Otherwise it makes one call, [buffered_final] with all the
    bytes held back, at least [f] and fewer than [b + f] of them, and no
    call of [buffered_block]; afterwards nothing is held back and the
    invariant holds. *)
Theorem end_msg_flushes (this : t) :
  wf this ->
  ((exists what, end_msg this = Raise (Invalid_State what))
   <-> m_buffer_pos this < m_final_minimum this) /\
  (m_final_minimum this <= m_buffer_pos this ->
   exists this',
     end_msg this = Done (this', [buffered_final (buffered this)]) /\
     m_final_minimum this <= length (buffered this) /\
     length (buffered this) < m_main_block_mod this + m_final_minimum this /\
     wf this' /\ m_buffer_pos this' = 0 /\
     m_main_block_mod this' = m_main_block_mod this /\
     m_final_minimum this' = m_final_minimum this).
Proof.
  intros Hwf. destruct (end_msg_spec this Hwf) as [Hthrow Hok].
  pose proof (buffered_length this Hwf) as Hlen.
  split; [split|].
  - intros [what E].
    destruct (Nat.lt_ge_cases (m_buffer_pos this) (m_final_minimum this)) as [Hlt|Hge];
      [assumption|].
    rewrite (Hok Hge) in E. discriminate.
  - intros Hlt. rewrite (Hthrow Hlt). eauto.
  - intros Hge. eexists. split; [exact (Hok Hge)|].
    destruct Hwf as (Hb & Hf & Hbuf & Hpos).
    unfold wf. cbn [m_main_block_mod m_final_minimum m_buffer m_buffer_pos].
    rewrite Hlen. repeat split; try assumption; lia.
Qed.

(** X12 (a whole message).  Let a filter satisfy the invariant and hold
    nothing back.  A message written in any number of pieces and ended
    with [end_msg] throws [Invalid_State] when it has fewer than [f]
    bytes.  Otherwise the calls made are [buffered_block] calls with
    positive multiples of the block size followed by exactly one
    [buffered_final] call with at least [f] and fewer than [b + f]
    bytes, and the bytes of the calls in order are the message; the
    filter is then ready for the next message. *)
Theorem message_spec (this : t) (pieces : list (list byte)) :
  wf this -> m_buffer_pos this = 0 ->
  (length (concat pieces) < m_final_minimum this ->
   exists what, message this pieces = Raise (Invalid_State what)) /\
  (m_final_minimum this <= length (concat pieces) ->
   exists this' blocks final,
     message this pieces = Done (this', blocks ++ [buffered_final final]) /\
     Forall (whole_blocks (m_main_block_mod this)) blocks /\
     data_of blocks ++ final = concat pieces /\
     m_final_minimum this <= length final /\
     length final < m_main_block_mod this + m_final_minimum this /\
     wf this' /\ m_buffer_pos this' = 0).
Proof.
  intros Hwf Hzero.
  destruct (write_all_spec pieces this Hwf)
    as (this1 & calls & Hw & Hwf1 & Hb & Hf & Hdata & Hblocks & Hpos).
  assert (Hbuf0 : buffered this = []) by (unfold buffered; now rewrite Hzero).
  rewrite Hbuf0 in Hdata. simpl in Hdata.
  pose proof (buffered_length this1 Hwf1) as Hlen1.
  destruct (end_msg_spec this1 Hwf1) as [Hthrow Hok].
  unfold message. rewrite Hw, and_then_Done. cbv beta iota.
  split.
  - intros Hlt.
    assert (Hshort : m_buffer_pos this1 < m_final_minimum this1).
    { apply (f_equal (@length byte)) in Hdata. rewrite length_app in Hdata. lia. }
    rewrite (Hthrow Hshort). simpl. eauto.
  - intros Hge.
    assert (Hfull : m_final_minimum this1 <= m_buffer_pos this1)
      by (rewrite Hf; apply Hpos; lia).
    rewrite (Hok Hfull), and_then_Done. cbv beta iota.
    eexists _, calls, (buffered this1). split; [reflexivity|].
    destruct Hwf1 as (Hb1 & Hf1 & Hbuf1 & Hpos1).
    unfold wf. cbn [m_main_block_mod m_final_minimum m_buffer m_buffer_pos].
    rewrite Hlen1. repeat split; try assumption; lia.
Qed.

End BufferedFilterFacts.

(** * The further properties on concrete inputs *)

Lemma pss_verify_accepts_exactly_encodings_witness :
  1 < length EM_80 /\
  length EM_80 <= ceil_tobytes 80 /\
  @pss_encode Adler32 (MGF1 Adler32) digest_01020304 salt_aabbccdd 80
    = Ok (left_pad EM_80 (ceil_tobytes 80)) /\
  @pss_verify Adler32 (MGF1 Adler32) EM_80 digest_01020304 80 (Some 0)
    = Ok (true, Some 4).
Proof.
  assert (H1 : 1 < length EM_80) by (simpl; lia).
  assert (H2 : length EM_80 <= ceil_tobytes 80) by (vm_compute; lia).
  assert (H3 : @pss_encode Adler32 (MGF1 Adler32) digest_01020304 salt_aabbccdd 80
               = Ok (left_pad EM_80 (ceil_tobytes 80))) by (vm_compute; reflexivity).
  repeat (split; [assumption|]).
  apply (proj2 (@pss_verify_accepts_exactly_encodings Adler32 (MGF1 Adler32)
                  EM_80 digest_01020304 80 0 4)).
  split; [exact H1|]. split; [exact H2|].
  exists salt_aabbccdd. split; [reflexivity | exact H3].
Defined.


Lemma encoding_of_error_iff_witness :
  length [x01; x02; x03] <> @output_length Adler32 /\
  is_encoding_error
    (fst (@PSSR_encoding_of Adler32 (MGF1 Adler32) CounterRNG
            (PSSR_new_salt 4) [x01; x02; x03] 80 0)).
Proof.
  assert (Hne : length [x01; x02; x03] <> @output_length Adler32) by (simpl; lia).
  split; [exact Hne|].
  apply (proj2 (proj1 (@encoding_of_error_iff Adler32 (MGF1 Adler32) CounterRNG
                         (PSSR_new_salt 4) (raw_required 4 []) [x01; x02; x03] 80 0))).
  left. exact Hne.
Defined.


Lemma PSS_Raw_message_flow_witness :
  concat [[x01]; [x02; x03; x04]] = concat [[x01; x02]; [x03; x04]] /\
  fst (@PSS_Raw_raw_data Adler32
         (fold_left PSS_Raw_update [[x01; x02]; [x03; x04]] (raw_required 4 [])))
    = Ok (concat [[x01; x02]; [x03; x04]]) /\
  snd (@PSS_Raw_raw_data Adler32
         (fold_left PSS_Raw_update [[x01; x02]; [x03; x04]] (raw_required 4 [])))
    = raw_required 4 [].
Proof.
  assert (Hsame : concat [[x01]; [x02; x03; x04]] = concat [[x01; x02]; [x03; x04]])
    by reflexivity.
  destruct (@PSS_Raw_message_flow Adler32 (MGF1 Adler32) CounterRNG
              (raw_required 4 []) [[x01; x02]; [x03; x04]] [[x01]; [x02; x03; x04]]
              80 0 eq_refl Hsame) as (_ & Hflow & Hafter).
  split; [exact Hsame|]. split; [|exact Hafter].
  apply Hflow; [reflexivity | simpl; lia].
Defined.

Lemma PSSR_message_flow_witness :
  concat [[x01]; [x02; x03; x04]] = concat [[x01; x02]; [x03; x04]] /\
  8 * @output_length Adler32 + 8 * pssr_salt_size (PSSR_new_salt 4) + 9 <= 80 /\
  @PSSR_raw_data Adler32 (fold_left PSSR_update [[x01; x02]; [x03; x04]] Hash.clear)
    = (@digest Adler32 (concat [[x01; x02]; [x03; x04]]), Hash.clear) /\
  exists EM,
    fst (@PSSR_encoding_of Adler32 (MGF1 Adler32) CounterRNG (PSSR_new_salt 4)
           (fst (@PSSR_raw_data Adler32
                   (fold_left PSSR_update [[x01; x02]; [x03; x04]] Hash.clear)))
           80 0) = Ok EM /\
    @PSSR_verify Adler32 (MGF1 Adler32) (PSSR_new_salt 4) EM
      (fst (@PSSR_raw_data Adler32
              (fold_left PSSR_update [[x01]; [x02; x03; x04]] Hash.clear)))
      80 = Ok true.
Proof.
  assert (Hsame : concat [[x01]; [x02; x03; x04]] = concat [[x01; x02]; [x03; x04]])
    by reflexivity.
  assert (Hbits : 8 * @output_length Adler32 + 8 * pssr_salt_size (PSSR_new_salt 4) + 9
                  <= 80) by (simpl; lia).
  split; [exact Hsame|]. split; [exact Hbits|].
  exact (@PSSR_message_flow Adler32 (MGF1 Adler32) CounterRNG (PSSR_new_salt 4)
           [[x01; x02]; [x03; x04]] [[x01]; [x02; x03; x04]] 80 0 Hsame Hbits).
Defined.

Module BufferedFilterVectors.
Import BufferedFilter BufferedFilterFacts.

Lemma wf_filter_4_2 : wf filter_4_2.
Proof. unfold wf. simpl. lia. Defined.


Lemma write_keeps_invariant_witness :
  wf filter_4_2 /\
  exists this' calls,
    write filter_4_2 [x01; x02; x03; x04; x05; x06; x07] = Done (this', calls) /\
    wf this' /\
    m_main_block_mod this' = m_main_block_mod filter_4_2 /\
    m_final_minimum this' = m_final_minimum filter_4_2 /\
    m_buffer_pos this' < m_main_block_mod filter_4_2 + m_final_minimum filter_4_2.
Proof.
  split; [exact wf_filter_4_2|].
  exact (write_keeps_invariant filter_4_2 [x01; x02; x03; x04; x05; x06; x07]
           wf_filter_4_2).
Defined.

Lemma write_preserves_stream_witness :
  wf filter_4_2 /\
  write filter_4_2 [x01] = Done (filter_4_2_one, []) /\
  data_of [] ++ buffered filter_4_2_one = buffered filter_4_2 ++ [x01] /\
  Forall (whole_blocks (m_main_block_mod filter_4_2)) [].
Proof.
  assert (Hw : write filter_4_2 [x01] = Done (filter_4_2_one, []))
    by (vm_compute; reflexivity).
  split; [exact wf_filter_4_2|]. split; [exact Hw|].
  exact (write_preserves_stream filter_4_2 filter_4_2_one [x01] [] wf_filter_4_2 Hw).
Defined.

Lemma write_threshold_witness :
  wf filter_4_2 /\
  write filter_4_2 [x01] = Done (filter_4_2_one, []) /\
  m_buffer_pos filter_4_2 + length [x01]
    < m_main_block_mod filter_4_2 + m_final_minimum filter_4_2 /\
  ([] = [] :> list call) /\ buffered filter_4_2_one = buffered filter_4_2 ++ [x01].
Proof.
  assert (Hw : write filter_4_2 [x01] = Done (filter_4_2_one, []))
    by (vm_compute; reflexivity).
  assert (Hlt : m_buffer_pos filter_4_2 + length [x01]
                < m_main_block_mod filter_4_2 + m_final_minimum filter_4_2)
    by (simpl; lia).
  split; [exact wf_filter_4_2|]. split; [exact Hw|]. split; [exact Hlt|].
  exact (proj1 (write_threshold filter_4_2 filter_4_2_one [x01] [] wf_filter_4_2 Hw) Hlt).
Defined.

Lemma wf_filter_4_2_one : wf filter_4_2_one.
Proof. unfold wf. simpl. lia. Defined.

Lemma end_msg_flushes_witness :
  wf filter_4_2_one /\
  m_buffer_pos filter_4_2_one < m_final_minimum filter_4_2_one /\
  exists what, end_msg filter_4_2_one = Raise (Invalid_State what).
Proof.
  assert (Hlt : m_buffer_pos filter_4_2_one < m_final_minimum filter_4_2_one)
    by (simpl; lia).
  split; [exact wf_filter_4_2_one|]. split; [exact Hlt|].
  exact (proj2 (proj1 (end_msg_flushes filter_4_2_one wf_filter_4_2_one)) Hlt).
Defined.

Lemma message_spec_witness :
  wf filter_4_2 /\ m_buffer_pos filter_4_2 = 0 /\
  m_final_minimum filter_4_2
    <= length (concat [[x01; x02; x03]; [x04; x05; x06; x07; x08; x09]; []; [x0a]]) /\
  exists this' blocks final,
    message filter_4_2 [[x01; x02; x03]; [x04; x05; x06; x07; x08; x09]; []; [x0a]]
      = Done (this', blocks ++ [buffered_final final]) /\
    Forall (whole_blocks (m_main_block_mod filter_4_2)) blocks /\
    data_of blocks ++ final
      = concat [[x01; x02; x03]; [x04; x05; x06; x07; x08; x09]; []; [x0a]] /\
    m_final_minimum filter_4_2 <= length final /\
    length final < m_main_block_mod filter_4_2 + m_final_minimum filter_4_2 /\
    wf this' /\ m_buffer_pos this' = 0.
Proof.
  assert (Hge : m_final_minimum filter_4_2
                <= length (concat [[x01; x02; x03]; [x04; x05; x06; x07; x08; x09];
                                   []; [x0a]])) by (simpl; lia).
  split; [exact wf_filter_4_2|]. split; [reflexivity|]. split; [exact Hge|].
  exact (proj2 (message_spec filter_4_2
                  [[x01; x02; x03]; [x04; x05; x06; x07; x08; x09]; []; [x0a]]
                  wf_filter_4_2 eq_refl) Hge).
Defined.

End BufferedFilterVectors.
